(** * Flavor wheel: geometry, taxonomy flattener, colours and gestures

    A shallow embedding of the TypeScript sources

    - [src/utils/wheelData.ts]  (module [WheelData]),
    - [src/utils/arc.ts]        (module [Arc]),
    - [src/utils/colors.ts]     (module [Colors]),
    - [src/components/FlavorWheel.tsx] (module [FlavorWheel]),

    followed by the properties of these functions.

    JavaScript numbers are modelled twice.

    The type [number] of module [Num] is a real number, or one of the three
    special values [Infinity], [-Infinity] and [NaN].  Arithmetic on finite
    values is exact and the special values follow the IEEE rules, so that
    what the program does on a division by zero is part of the model.  On
    this model rest the properties that the rounding of doubles does not
    touch: which branch a test takes, what a handler writes and what it
    leaves alone, the expression that a handler evaluates, the propagation
    of [NaN] and the range of a clamp.

    Module [F64] evaluates the flattener and the tooltip positioner in IEEE
    754 binary64 arithmetic, every operation rounded to nearest, as
    JavaScript does.  On it rest the layout of the wheel, and the inputs on
    which the angles and distances that the code computes differ from the
    exact ones. *)

From Stdlib Require Import QArith Qround.
From Stdlib Require Import Reals Lra Lia.
From Stdlib Require Lqa.
From Stdlib Require Import List String Ascii ZArith Bool.
From Stdlib Require Import HexadecimalString.
From Stdlib Require HexadecimalN Hexadecimal.
From Stdlib Require Import Permutation.
From Stdlib Require Floats.
Import ListNotations.

Local Open Scope R_scope.

(* ================================================================== *)
(** * Part I: definitions *)
(* ================================================================== *)

(** ** JavaScript numbers *)

Module Num.

Inductive number : Type :=
| Fin (x : R)      (* a finite value *)
| PInf             (* Infinity *)
| NInf             (* -Infinity *)
| NaN.

Definition Rltb (x y : R) : bool := if Rlt_dec x y then true else false.
Definition Reqb (x y : R) : bool := if Req_dec_T x y then true else false.

(** [a + b] *)
Definition add (a b : number) : number :=
  match a, b with
  | NaN, _ | _, NaN => NaN
  | Fin x, Fin y => Fin (x + y)
  | PInf, NInf | NInf, PInf => NaN
  | PInf, _ | _, PInf => PInf
  | NInf, _ | _, NInf => NInf
  end.

(** [-a] *)
Definition neg (a : number) : number :=
  match a with
  | Fin x => Fin (- x)
  | PInf => NInf
  | NInf => PInf
  | NaN => NaN
  end.

(** [a - b] *)
Definition sub (a b : number) : number :=
  match a, b with
  | NaN, _ | _, NaN => NaN
  | Fin x, Fin y => Fin (x - y)
  | PInf, PInf | NInf, NInf => NaN
  | PInf, _ | _, NInf => PInf
  | NInf, _ | _, PInf => NInf
  end.

(** An infinity scaled by the finite factor [x]: the sign follows the sign
    of [x], and [0 * Infinity] is [NaN]. *)
Definition scale_inf (x : R) (pos : bool) : number :=
  if Rltb 0 x then (if pos then PInf else NInf)
  else if Rltb x 0 then (if pos then NInf else PInf)
  else NaN.

(** [a * b] *)
Definition mul (a b : number) : number :=
  match a, b with
  | NaN, _ | _, NaN => NaN
  | Fin x, Fin y => Fin (x * y)
  | Fin x, PInf | PInf, Fin x => scale_inf x true
  | Fin x, NInf | NInf, Fin x => scale_inf x false
  | PInf, PInf | NInf, NInf => PInf
  | PInf, NInf | NInf, PInf => NInf
  end.

(** [a / b].  Zero carries no sign in this model: a zero divisor is the
    positive zero, which is what the divisors of this program are (the
    length of an array, the result of [Math.hypot]). *)
Definition div (a b : number) : number :=
  match a, b with
  | NaN, _ | _, NaN => NaN
  | Fin x, Fin y =>
      if Reqb y 0
      then (if Rltb 0 x then PInf else if Rltb x 0 then NInf else NaN)
      else Fin (x / y)
  | Fin _, PInf | Fin _, NInf => Fin 0
  | PInf, Fin y => if Rltb y 0 then NInf else PInf
  | NInf, Fin y => if Rltb y 0 then PInf else NInf
  | _, _ => NaN
  end.

(** Truncation toward zero of a real number. *)
Definition trunc (x : R) : Z :=
  if Rle_dec 0 x then Int_part x else (- Int_part (- x))%Z.

(** [a % b]: the remainder has the sign of the dividend. *)
Definition rem (a b : number) : number :=
  match a, b with
  | Fin x, Fin y =>
      if Reqb y 0 then NaN else Fin (x - y * IZR (trunc (x / y)))
  | Fin x, PInf | Fin x, NInf => Fin x
  | _, _ => NaN
  end.

(** [a < b]; every comparison with [NaN] is false. *)
Definition lt (a b : number) : bool :=
  match a, b with
  | NaN, _ | _, NaN => false
  | Fin x, Fin y => Rltb x y
  | _, NInf => false
  | NInf, _ => true
  | PInf, _ => false
  | Fin _, PInf => true
  end.

(** [a > b] *)
Definition gt (a b : number) : bool := lt b a.

(** [Math.max(a, b)] and [Math.min(a, b)]: [NaN] when an argument is. *)
Definition Math_max (a b : number) : number :=
  match a, b with
  | NaN, _ | _, NaN => NaN
  | _, _ => if lt a b then b else a
  end.

Definition Math_min (a b : number) : number :=
  match a, b with
  | NaN, _ | _, NaN => NaN
  | _, _ => if lt b a then b else a
  end.

(** [Math.hypot(a, b)]: [Infinity] when an argument is infinite, else
    [NaN] when an argument is [NaN], else the square root of the sum of
    the squares. *)
Definition Math_hypot (a b : number) : number :=
  match a, b with
  | PInf, _ | NInf, _ | _, PInf | _, NInf => PInf
  | NaN, _ | _, NaN => NaN
  | Fin x, Fin y => Fin (sqrt (x * x + y * y))
  end.

(** [Math.cos(a)] and [Math.sin(a)] *)
Definition Math_cos (a : number) : number :=
  match a with Fin x => Fin (cos x) | _ => NaN end.
Definition Math_sin (a : number) : number :=
  match a with Fin x => Fin (sin x) | _ => NaN end.

(** The numbers that count as false in a condition: zero and [NaN]. *)
Definition falsy (a : number) : bool :=
  match a with
  | Fin x => Reqb x 0
  | NaN => true
  | _ => false
  end.

(** [a || b] on numbers *)
Definition or_else (a b : number) : number := if falsy a then b else a.

(** The index of an array element, as a number. *)
Definition of_nat (n : nat) : number := Fin (INR n).

(** A number that is neither infinite nor [NaN]. *)
Definition finite (a : number) : Prop := exists x, a = Fin x.

End Num.

Import Num.

(** ** [src/utils/arc.ts] *)

Module Arc.

(** Degrees with 0 at the top (12 o'clock), clockwise. *)
Definition degToRad (deg : number) : number :=
  div (mul (sub deg (Fin 90)) (Fin PI)) (Fin 180).

Definition polarToCart (cx cy r deg : number) : number * number :=
  let rad := degToRad deg in
  (add cx (mul r (Math_cos rad)), add cy (mul r (Math_sin rad))).

(** Mid angle in degrees for label placement. *)
Definition midAngle (startDeg endDeg : number) : number :=
  div (add startDeg endDeg) (Fin 2).

(** The commands of an SVG path: [M x y], [A rx ry rotation large sweep x y]
    (the two flags are 0 or 1), [L x y] and [Z]. *)
Inductive PathCommand : Type :=
| MoveTo (x y : number)
| ArcTo (rx ry xAxisRotation : number) (largeArc sweep : bool) (x y : number)
| LineTo (x y : number)
| ClosePath.

(** SVG path for an arc from startDeg to endDeg (degrees, 0 at top,
    clockwise).  The template string of the source joins the commands below
    with spaces; the path is modelled by the sequence of its commands, the
    printing of the numbers is not. *)
Definition describeArc (cx cy rInner rOuter startDeg endDeg : number)
  : list PathCommand :=
  let (x1, y1) := polarToCart cx cy rOuter startDeg in
  let (x2, y2) := polarToCart cx cy rOuter endDeg in
  let (x3, y3) := polarToCart cx cy rInner endDeg in
  let (x4, y4) := polarToCart cx cy rInner startDeg in
  let large := gt (sub endDeg startDeg) (Fin 180) in
  [ MoveTo x1 y1;
    ArcTo rOuter rOuter (Fin 0) large true x2 y2;
    LineTo x3 y3;
    ArcTo rInner rInner (Fin 0) large false x4 y4;
    ClosePath ].

End Arc.

(** ** [src/types] and [src/utils/wheelData.ts] *)

Module WheelData.

Local Set Warnings "-register-all".

(** [FlavorNode]: the optional [children] record is an association list
    in the enumeration order of [Object.keys]. *)
Inductive FlavorNode : Type :=
| mkFlavorNode (name description : string)
               (children : option (list (string * FlavorNode))).

Definition node_name (n : FlavorNode) : string :=
  match n with mkFlavorNode nm _ _ => nm end.
Definition node_description (n : FlavorNode) : string :=
  match n with mkFlavorNode _ d _ => d end.
Definition node_children (n : FlavorNode)
  : option (list (string * FlavorNode)) :=
  match n with mkFlavorNode _ _ c => c end.

Definition FlavorWheelData : Type := list (string * FlavorNode).

(** The ring of a segment, [1 | 2 | 3]. *)
Inductive Ring : Type := Ring1 | Ring2 | Ring3.

Definition ring_number (r : Ring) : nat :=
  match r with Ring1 => 1 | Ring2 => 2 | Ring3 => 3 end.

Definition ring_eqb (r r' : Ring) : bool :=
  Nat.eqb (ring_number r) (ring_number r').

Record WheelSegment : Type := mkWheelSegment {
  id : string;
  ring : Ring;
  name : string;
  description : string;
  startAngle : number;
  endAngle : number;
  parentId : option string;
  categoryId : string
}.

Record Options : Type := mkOptions {
  startAngleDeg : number;
  clockwise : bool
}.

(** [segments.push(s)] *)
Definition push (segments : list WheelSegment) (s : WheelSegment)
  : list WheelSegment :=
  segments ++ [s].

(** [keys.forEach((key, i) => ...)] over the entries of a record, the
    callback updating the state [St]; [i] is the index of the first
    entry. *)
Fixpoint forEach {A St : Type} (f : A -> nat -> St -> St) (xs : list A)
  (i : nat) (st : St) : St :=
  match xs with
  | [] => st
  | x :: xs' => forEach f xs' (S i) (f x i st)
  end.

(** The callback of the innermost loop (lines 52-67). *)
Definition leafCallback (catId subId : string) (b0 leafStep sign : number)
  (entry : string * FlavorNode) (k : nat) (segments : list WheelSegment)
  : list WheelSegment :=
  let (leafId, leaf) := entry in
  let c0 := add b0 (mul (mul (of_nat k) leafStep) sign) in
  let c1 := add b0 (mul (mul (add (of_nat k) (Fin 1)) leafStep) sign) in
  push segments
    {| id := (catId ++ "-" ++ subId ++ "-" ++ leafId)%string;
       ring := Ring3;
       name := node_name leaf;
       description := node_description leaf;
       startAngle := c0;
       endAngle := c1;
       parentId := Some (catId ++ "-" ++ subId)%string;
       categoryId := catId |}.

(** The callback of the middle loop (lines 32-68). *)
Definition subCallback (catId : string) (a0 subStep sign : number)
  (entry : string * FlavorNode) (j : nat) (segments : list WheelSegment)
  : list WheelSegment :=
  let (subId, sub) := entry in
  let b0 := add a0 (mul (mul (of_nat j) subStep) sign) in
  let b1 := add a0 (mul (mul (add (of_nat j) (Fin 1)) subStep) sign) in
  let segments :=
    push segments
      {| id := (catId ++ "-" ++ subId)%string;
         ring := Ring2;
         name := node_name sub;
         description := node_description sub;
         startAngle := b0;
         endAngle := b1;
         parentId := Some catId;
         categoryId := catId |} in
  match node_children sub with
  | None => segments
  | Some leaves =>
      let leafKeys := leaves in
      let leafStep := div subStep (of_nat (List.length leafKeys)) in
      forEach (leafCallback catId subId b0 leafStep sign) leafKeys 0 segments
  end.

(** The callback of the outer loop (lines 13-69). *)
Definition catCallback (options : Options) (step sign : number)
  (entry : string * FlavorNode) (i : nat) (segments : list WheelSegment)
  : list WheelSegment :=
  let (catId, cat) := entry in
  let a0 := add (startAngleDeg options) (mul (mul (of_nat i) step) sign) in
  let a1 :=
    add (startAngleDeg options)
        (mul (mul (add (of_nat i) (Fin 1)) step) sign) in
  let segments :=
    push segments
      {| id := catId;
         ring := Ring1;
         name := node_name cat;
         description := node_description cat;
         startAngle := a0;
         endAngle := a1;
         parentId := None;
         categoryId := catId |} in
  match node_children cat with
  | None => segments
  | Some subs =>
      let subKeys := subs in
      let subStep := div step (of_nat (List.length subKeys)) in
      forEach (subCallback catId a0 subStep sign) subKeys 0 segments
  end.

Definition flattenToSegments (data : FlavorWheelData) (options : Options)
  : list WheelSegment :=
  let segments := [] in
  let total := Fin 360 in
  let keys := data in
  let step := div total (of_nat (List.length keys)) in
  let sign := if clockwise options then Fin 1 else Fin (-1) in
  forEach (catCallback options step sign) keys 0 segments.

Definition buildWheelSegments (data : FlavorWheelData) : list WheelSegment :=
  flattenToSegments data {| startAngleDeg := Fin 0; clockwise := true |}.

Definition getSegmentsByRing (segments : list WheelSegment) (r : Ring)
  : list WheelSegment :=
  filter (fun s => ring_eqb (ring s) r) segments.

End WheelData.

(** ** [src/utils/colors.ts]

    The colour channels are integers and the lightening amounts are the
    decimal literals [0.2] and [0.38]; this module computes with exact
    rationals, so that the functions evaluate. *)

Module Colors.

Import WheelData.

(** One base color per top-level category.  (Keys inherited from
    [Object.prototype] are not modelled.) *)
Definition CATEGORY_BASE : list (string * string) :=
  [ ("vegetale", "#4a7c4a");
    ("animale", "#8b6914");
    ("floreale", "#b85c7a");
    ("fruttato", "#c46838");
    ("caldo", "#c9a227");
    ("aromatico", "#6b6b9e");
    ("chimico", "#5c6b6b") ]%string.

(** [record[key]] for the keys of the record itself: [None] stands for
    [undefined].  A key that [Object.prototype] defines ([constructor],
    [toString] and the like) finds the inherited value in the code; such
    keys are outside the model. *)
Fixpoint lookup (record : list (string * string)) (key : string)
  : option string :=
  match record with
  | [] => None
  | (k, v) :: rest => if String.eqb k key then Some v else lookup rest key
  end.

(** [s.slice(1)] *)
Definition slice1 (s : string) : string :=
  match s with
  | EmptyString => EmptyString
  | String _ rest => rest
  end.

(** The value of a hexadecimal digit. *)
Definition hex_digit (c : ascii) : option Z :=
  let n := Z.of_nat (nat_of_ascii c) in
  if ((48 <=? n) && (n <=? 57))%Z%bool then Some (n - 48)%Z
  else if ((97 <=? n) && (n <=? 102))%Z%bool then Some (n - 87)%Z
  else if ((65 <=? n) && (n <=? 70))%Z%bool then Some (n - 55)%Z
  else None.

(** The digits of [parseInt(s, 16)]: the longest prefix of hexadecimal
    digits is read, [acc] being the value read so far. *)
Fixpoint parse_hex_digits (s : string) (acc : Z) : Z :=
  match s with
  | EmptyString => acc
  | String c rest =>
      match hex_digit c with
      | Some d => parse_hex_digits rest (16 * acc + d)%Z
      | None => acc
      end
  end.

(** [parseInt(s, 16)] on a string that starts with neither white space, a
    sign nor [0x]; [None] stands for [NaN] (no digit could be read). *)
Definition parseInt16 (s : string) : option Z :=
  match s with
  | EmptyString => None
  | String c _ =>
      match hex_digit c with
      | Some _ => Some (parse_hex_digits s 0)
      | None => None
      end
  end.

(** The conversion to a 32-bit integer that the bit operators apply to
    their operands; [NaN] becomes 0. *)
Definition toInt32 (n : option Z) : Z :=
  match n with
  | None => 0%Z
  | Some z => ((z + 2 ^ 31) mod 2 ^ 32 - 2 ^ 31)%Z
  end.

(** [(n >> k) & 0xff] *)
Definition channel (n : option Z) (k : Z) : Z :=
  Z.land (Z.shiftr (toInt32 n) k) 255.

(** [Math.round(x)]: the nearest integer, halves rounded up. *)
Definition Math_round (x : Q) : Z := Qfloor (x + (1 # 2))%Q.

(** [n.toString(16)] for a non-negative integer [n]. *)
Definition toString16 (n : Z) : string :=
  NilZero.string_of_uint (N.to_hex_uint (Z.to_N n)).

(** [Math.min(a, b)] on finite values. *)
Definition Math_min (a b : Q) : Q := if Qle_bool a b then a else b.

(** [Math.min(255, c + (255 - c) * amount)] for the channel [c]. *)
Definition lighten_channel (c : Z) (amount : Q) : Q :=
  Math_min 255 (inject_Z c + (255 - inject_Z c) * amount)%Q.

Definition lighten (hex : string) (amount : Q) : string :=
  let n := parseInt16 (slice1 hex) in
  let r := lighten_channel (channel n 16) amount in
  let g := lighten_channel (channel n 8) amount in
  let b := lighten_channel (channel n 0) amount in
  ("#" ++
   slice1 (toString16 (16777216 + Math_round r * 65536
                       + Math_round g * 256 + Math_round b)%Z))%string.

Definition getSegmentFill (categoryId : string) (r : Ring) : string :=
  let base :=
    match lookup CATEGORY_BASE categoryId with
    | Some c => c
    | None => "#888"%string
    end in
  match r with
  | Ring1 => base
  | Ring2 => lighten base (2 # 10)
  | Ring3 => lighten base (38 # 100)
  end.

End Colors.

(** ** [src/components/FlavorWheel.tsx]

    The component keeps [rotation], [zoom] and [tooltip] as React state and
    the two gesture anchors [dragRef] and [pinchRef] as mutable references.
    Every handler is modelled as a function from the view state before the
    event to the view state after it.  The reference [zoomRef] mirrors
    [zoom] at every render, so reading [zoomRef.current] is reading
    [zoom]. *)

Module FlavorWheel.

Definition VIEW_SIZE : number := Fin 800.
Definition CX : number := div VIEW_SIZE (Fin 2).
Definition CY : number := div VIEW_SIZE (Fin 2).

Definition R1_INNER : number := Fin 76.
Definition R1_OUTER : number := Fin 186.
Definition R2_INNER : number := Fin 186.
Definition R2_OUTER : number := Fin 318.
Definition R3_INNER : number := Fin 318.
Definition R3_OUTER : number := Fin 399.

Record Radii : Type := mkRadii { inner : number; outer : number }.

Definition RING_RADII (r : WheelData.Ring) : Radii :=
  match r with
  | WheelData.Ring1 => {| inner := R1_INNER; outer := R1_OUTER |}
  | WheelData.Ring2 => {| inner := R2_INNER; outer := R2_OUTER |}
  | WheelData.Ring3 => {| inner := R3_INNER; outer := R3_OUTER |}
  end.

Definition ZOOM_MIN : number := Fin (5 / 10).
Definition ZOOM_MAX : number := Fin 3.
Definition ZOOM_SENSITIVITY : number := Fin (2 / 1000).

(** Tangential label: text runs along the arc.  Upright in screen space:
    flip 180 degrees when the segment is on the left half (so text is
    never upside down). *)
Definition tangentialLabelRotation (midDeg wheelRotation : number) : number :=
  let alongArc := add midDeg (Fin 90) in
  let screenAngle :=
    rem (add (add alongArc wheelRotation) (Fin 360)) (Fin 360) in
  let upsideDown := gt screenAngle (Fin 90) && lt screenAngle (Fin 270) in
  if upsideDown then add alongArc (Fin 180) else alongArc.

(** The browser window, when there is one. *)
Record Window : Type := mkWindow {
  innerWidth : number;
  innerHeight : number
}.

Record Position : Type := mkPosition { x : number; y : number }.

(** Position tooltip toward viewport center so it never covers the sector
    label.  [window = None] is the case [typeof window === 'undefined']. *)
Definition getTooltipPosition (window : option Window)
  (segmentViewportX segmentViewportY : number) : Position :=
  let vw :=
    match window with
    | Some w => div (innerWidth w) (Fin 2)
    | None => Fin 400
    end in
  let vh :=
    match window with
    | Some w => div (innerHeight w) (Fin 2)
    | None => Fin 400
    end in
  let dx := sub vw segmentViewportX in
  let dy := sub vh segmentViewportY in
  let len := or_else (Math_hypot dx dy) (Fin 1) in
  let offset := Fin 100 in
  {| x := add segmentViewportX (mul (div dx len) offset);
     y := add segmentViewportY (mul (div dy len) offset) |}.

(** *** View state *)

Record DragAnchor : Type := mkDragAnchor {
  startAngle : number;
  startRotation : number
}.

Record PinchBaseline : Type := mkPinchBaseline {
  initialDistance : number;
  initialZoom : number
}.

Record Tooltip : Type := mkTooltip {
  seg : WheelData.WheelSegment;
  tooltip_x : number;
  tooltip_y : number
}.

Record ViewState : Type := mkViewState {
  rotation : number;
  zoom : number;
  tooltip : option Tooltip;
  dragRef : option DragAnchor;
  pinchRef : option PinchBaseline
}.

(** The state at mount: [useState(0)], [useState(1)], [useState(null)],
    [useRef(null)], [useRef(null)]. *)
Definition initialState : ViewState :=
  {| rotation := Fin 0; zoom := Fin 1; tooltip := None;
     dragRef := None; pinchRef := None |}.

Definition setRotation (v : number) (st : ViewState) : ViewState :=
  {| rotation := v; zoom := zoom st; tooltip := tooltip st;
     dragRef := dragRef st; pinchRef := pinchRef st |}.

Definition setZoom (v : number) (st : ViewState) : ViewState :=
  {| rotation := rotation st; zoom := v; tooltip := tooltip st;
     dragRef := dragRef st; pinchRef := pinchRef st |}.

Definition setTooltip (v : option Tooltip) (st : ViewState) : ViewState :=
  {| rotation := rotation st; zoom := zoom st; tooltip := v;
     dragRef := dragRef st; pinchRef := pinchRef st |}.

Definition setDragRef (v : option DragAnchor) (st : ViewState) : ViewState :=
  {| rotation := rotation st; zoom := zoom st; tooltip := tooltip st;
     dragRef := v; pinchRef := pinchRef st |}.

Definition setPinchRef (v : option PinchBaseline) (st : ViewState)
  : ViewState :=
  {| rotation := rotation st; zoom := zoom st; tooltip := tooltip st;
     dragRef := dragRef st; pinchRef := v |}.

(** *** Events

    The coordinates and deltas that the browser delivers are finite (they
    are [double] attributes of the DOM interfaces), hence real numbers. *)

(** A pointer event: its button and [polarDeg], the value of
    [Math.atan2(dy, dx) * 180 / Math.PI] for the pointer position [(dx, dy)]
    relative to the wheel center in the logical viewport. *)
Record PointerEvent : Type := mkPointerEvent {
  button : Z;
  polarDeg : number
}.

Record WheelEvent : Type := mkWheelEvent { deltaY : R }.

Record Touch : Type := mkTouch { clientX : R; clientY : R }.

(** [getBoundingClientRect()] of the element under the pointer. *)
Record DOMRect : Type := mkDOMRect {
  left : number;
  top : number;
  width : number;
  height : number
}.

(** *** Rotate-drag *)

Definition angleFromEvent (e : PointerEvent) : number :=
  rem (add (add (polarDeg e) (Fin 90)) (Fin 360)) (Fin 360).

Definition handlePointerDown (e : PointerEvent) (st : ViewState)
  : ViewState :=
  if negb (Z.eqb (button e) 0) then st
  else
    setDragRef
      (Some {| startAngle := angleFromEvent e;
               startRotation := rotation st |}) st.

Definition handlePointerMove (e : PointerEvent) (st : ViewState)
  : ViewState :=
  match dragRef st with
  | None => st
  | Some anchor =>
      let currentAngle := angleFromEvent e in
      let delta := sub currentAngle (startAngle anchor) in
      let delta := if gt delta (Fin 180) then sub delta (Fin 360) else delta in
      let delta :=
        if lt delta (Fin (-180)) then add delta (Fin 360) else delta in
      setRotation (add (startRotation anchor) delta) st
  end.

Definition handlePointerUp (st : ViewState) : ViewState :=
  setDragRef None st.

(** *** Wheel-zoom *)

Definition handleWheel (e : WheelEvent) (st : ViewState) : ViewState :=
  setZoom
    (Math_min ZOOM_MAX
       (Math_max ZOOM_MIN
          (sub (zoom st) (mul (Fin (deltaY e)) ZOOM_SENSITIVITY))))
    st.

(** *** Pinch-zoom *)

(** [getTouchDistance(touches)] for [touches[0] = a], [touches[1] = b]. *)
Definition getTouchDistance (a b : Touch) : number :=
  Math_hypot (sub (Fin (clientX b)) (Fin (clientX a)))
             (sub (Fin (clientY b)) (Fin (clientY a))).

Definition handleTouchStart (touches : list Touch) (st : ViewState)
  : ViewState :=
  match touches with
  | [a; b] =>
      setPinchRef
        (Some {| initialDistance := getTouchDistance a b;
                 initialZoom := zoom st |}) st
  | _ => st
  end.

Definition handleTouchMove (touches : list Touch) (st : ViewState)
  : ViewState :=
  match touches, pinchRef st with
  | [a; b], Some pinch =>
      let scale := div (getTouchDistance a b) (initialDistance pinch) in
      let newZoom :=
        Math_min ZOOM_MAX (Math_max ZOOM_MIN (mul (initialZoom pinch) scale)) in
      setZoom newZoom st
  | _, _ => st
  end.

Definition handleTouchEndWithE (touches : list Touch) (st : ViewState)
  : ViewState :=
  if Nat.ltb (List.length touches) 2 then setPinchRef None st else st.

(** *** Reset (the display variant of the component) *)

Definition handleReset (st : ViewState) : ViewState :=
  setRotation (Fin 0) (setZoom (Fin 1) st).

(** *** Segment hover and click *)

(** The tooltip of the segment [s] hovered or clicked in an element whose
    bounding rectangle is [rect]: the computation shared by
    [handleSegmentPointerEnter], [handleSegmentPointerMove] and
    [handleSegmentClick]. *)
Definition segmentTooltip (window : option Window)
  (s : WheelData.WheelSegment) (rect : DOMRect) : Tooltip :=
  let mid := Arc.midAngle (WheelData.startAngle s) (WheelData.endAngle s) in
  let r :=
    div (add (inner (RING_RADII (WheelData.ring s)))
             (outer (RING_RADII (WheelData.ring s)))) (Fin 2) in
  let (sx, sy) := Arc.polarToCart CX CY r mid in
  let segX := add (left rect) (mul (div sx VIEW_SIZE) (width rect)) in
  let segY := add (top rect) (mul (div sy VIEW_SIZE) (height rect)) in
  let p := getTooltipPosition window segX segY in
  {| seg := s; tooltip_x := x p; tooltip_y := y p |}.

Definition handleSegmentPointerEnter (window : option Window)
  (s : WheelData.WheelSegment) (rect : DOMRect) (st : ViewState)
  : ViewState :=
  match dragRef st with
  | Some _ => st
  | None => setTooltip (Some (segmentTooltip window s rect)) st
  end.

Definition handleSegmentPointerMove (window : option Window)
  (s : WheelData.WheelSegment) (rect : DOMRect) (st : ViewState)
  : ViewState :=
  match tooltip st with
  | Some prev =>
      if String.eqb (WheelData.id (seg prev)) (WheelData.id s)
      then setTooltip (Some (segmentTooltip window s rect)) st
      else st
  | None => st
  end.

Definition handleSegmentPointerLeave (st : ViewState) : ViewState :=
  setTooltip None st.

Definition handleSegmentClick (window : option Window)
  (s : WheelData.WheelSegment) (rect : DOMRect) (st : ViewState)
  : ViewState :=
  match tooltip st with
  | Some cur =>
      if String.eqb (WheelData.id (seg cur)) (WheelData.id s)
      then setTooltip None st
      else setTooltip (Some (segmentTooltip window s rect)) st
  | None => setTooltip (Some (segmentTooltip window s rect)) st
  end.

(** *** Labels (the second loop of the render)

    Strings are sequences of characters; [name.includes], [name.indexOf]
    and [name.slice] are modelled on them. *)

(** [s.indexOf(c)] for a character [c]; [None] stands for -1. *)
Fixpoint indexOf (c : ascii) (s : string) : option nat :=
  match s with
  | EmptyString => None
  | String a rest =>
      if Ascii.eqb a c then Some 0%nat
      else match indexOf c rest with
           | Some i => Some (S i)
           | None => None
           end
  end.

(** [s.includes(c)] *)
Fixpoint includes (c : ascii) (s : string) : bool :=
  match s with
  | EmptyString => false
  | String a rest => Ascii.eqb a c || includes c rest
  end.

(** [s.slice(0, n)] and [s.slice(n)] for an index [n] from 0 on. *)
Fixpoint slice_to (n : nat) (s : string) : string :=
  match n, s with
  | S n', String a rest => String a (slice_to n' rest)
  | _, _ => EmptyString
  end.

Fixpoint slice_from (n : nat) (s : string) : string :=
  match n, s with
  | S n', String _ rest => slice_from n' rest
  | _, _ => s
  end.

Definition getRadius (r : WheelData.Ring) : Radii := RING_RADII r.

(** [ring === 3 && seg.name.includes(' ')] *)
Definition isOuterTwoLine (s : WheelData.WheelSegment) : bool :=
  WheelData.ring_eqb (WheelData.ring s) WheelData.Ring3
  && includes " " (WheelData.name s).

(** The two lines [line1], [line2] of the label of the segment [s]. *)
Definition labelLines (s : WheelData.WheelSegment) : string * string :=
  if isOuterTwoLine s then
    match indexOf " " (WheelData.name s) with
    | None => (WheelData.name s, EmptyString)
    | Some idx =>
        (slice_to idx (WheelData.name s),
         slice_from (idx + 1) (WheelData.name s))
    end
  else (WheelData.name s, EmptyString).

(** The path of the segment [s], as drawn by the first loop of the
    render. *)
Definition segmentPath (s : WheelData.WheelSegment) : list Arc.PathCommand :=
  let r := getRadius (WheelData.ring s) in
  Arc.describeArc CX CY (inner r) (outer r)
    (WheelData.startAngle s) (WheelData.endAngle s).

(** *** The events of the component and their dispatch *)

Inductive Event : Type :=
| PointerDown (e : PointerEvent)
| PointerMove (e : PointerEvent)
| PointerUp
| PointerLeave
| Wheel (e : WheelEvent)
| TouchStart (touches : list Touch)
| TouchMove (touches : list Touch)
| TouchEnd (touches : list Touch)
| TouchCancel (touches : list Touch)
| Reset
| SegmentPointerEnter (s : WheelData.WheelSegment) (rect : DOMRect)
| SegmentPointerMove (s : WheelData.WheelSegment) (rect : DOMRect)
| SegmentPointerLeave
| SegmentClick (s : WheelData.WheelSegment) (rect : DOMRect).

Definition handle (window : option Window) (st : ViewState) (ev : Event)
  : ViewState :=
  match ev with
  | PointerDown e => handlePointerDown e st
  | PointerMove e => handlePointerMove e st
  | PointerUp | PointerLeave => handlePointerUp st
  | Wheel e => handleWheel e st
  | TouchStart touches => handleTouchStart touches st
  | TouchMove touches => handleTouchMove touches st
  | TouchEnd touches | TouchCancel touches => handleTouchEndWithE touches st
  | Reset => handleReset st
  | SegmentPointerEnter s rect => handleSegmentPointerEnter window s rect st
  | SegmentPointerMove s rect => handleSegmentPointerMove window s rect st
  | SegmentPointerLeave => handleSegmentPointerLeave st
  | SegmentClick s rect => handleSegmentClick window s rect st
  end.

(** The state after a sequence of events, handled one after the other. *)
Definition run (window : option Window) (st : ViewState)
  (events : list Event) : ViewState :=
  fold_left (handle window) events st.

End FlavorWheel.

(** ** The flattener and the tooltip positioner in IEEE 754 doubles

    The same functions of [src/utils/wheelData.ts] and
    [src/components/FlavorWheel.tsx], every number a binary64 float and
    every operation rounded to nearest, as JavaScript evaluates them. *)

Module F64.

Import PrimFloat.
Import WheelData.
Local Open Scope float_scope.

(** The number of keys of a record, [keys.length], as a double; exact below
    [2^53]. *)
Definition of_nat (n : nat) : float := of_uint63 (Uint63.of_Z (Z.of_nat n)).

(** The rational number that a finite double denotes. *)
Definition exact (a : float) : option Q :=
  match FloatOps.Prim2SF a with
  | SpecFloat.S754_zero _ => Some 0%Q
  | SpecFloat.S754_finite s m e =>
      Some (Qred (inject_Z (if s then Z.neg m else Z.pos m) * Qpower 2 e))
  | _ => None
  end.

(** [WheelSegment] and the options of the flattener, the angles being
    doubles; nodes, taxonomies and rings are those of [WheelData]. *)
Record WheelSegment : Type := mkWheelSegment {
  id : string;
  ring : Ring;
  name : string;
  description : string;
  startAngle : float;
  endAngle : float;
  parentId : option string;
  categoryId : string
}.

Record Options : Type := mkOptions {
  startAngleDeg : float;
  clockwise : bool
}.

(** [segments.push(s)] *)
Definition push (segments : list WheelSegment) (s : WheelSegment)
  : list WheelSegment :=
  segments ++ [s].

(** [keys.forEach((key, i) => ...)]: the index [i] is a number, one more at
    every round. *)
Fixpoint forEach {A St : Type} (f : A -> float -> St -> St) (xs : list A)
  (i : float) (st : St) : St :=
  match xs with
  | [] => st
  | x :: xs' => forEach f xs' (i + 1) (f x i st)
  end.

(** The callback of the innermost loop (lines 52-67). *)
Definition leafCallback (catId subId : string) (b0 leafStep sign : float)
  (entry : string * FlavorNode) (k : float) (segments : list WheelSegment)
  : list WheelSegment :=
  let (leafId, leaf) := entry in
  let c0 := b0 + k * leafStep * sign in
  let c1 := b0 + (k + 1) * leafStep * sign in
  push segments
    {| id := (catId ++ "-" ++ subId ++ "-" ++ leafId)%string;
       ring := Ring3;
       name := node_name leaf;
       description := node_description leaf;
       startAngle := c0;
       endAngle := c1;
       parentId := Some (catId ++ "-" ++ subId)%string;
       categoryId := catId |}.

(** The callback of the middle loop (lines 32-68). *)
Definition subCallback (catId : string) (a0 subStep sign : float)
  (entry : string * FlavorNode) (j : float) (segments : list WheelSegment)
  : list WheelSegment :=
  let (subId, sub) := entry in
  let b0 := a0 + j * subStep * sign in
  let b1 := a0 + (j + 1) * subStep * sign in
  let segments :=
    push segments
      {| id := (catId ++ "-" ++ subId)%string;
         ring := Ring2;
         name := node_name sub;
         description := node_description sub;
         startAngle := b0;
         endAngle := b1;
         parentId := Some catId;
         categoryId := catId |} in
  match node_children sub with
  | None => segments
  | Some leaves =>
      let leafKeys := leaves in
      let leafStep := subStep / of_nat (List.length leafKeys) in
      forEach (leafCallback catId subId b0 leafStep sign) leafKeys 0 segments
  end.

(** The callback of the outer loop (lines 13-69). *)
Definition catCallback (options : Options) (step sign : float)
  (entry : string * FlavorNode) (i : float) (segments : list WheelSegment)
  : list WheelSegment :=
  let (catId, cat) := entry in
  let a0 := startAngleDeg options + i * step * sign in
  let a1 := startAngleDeg options + (i + 1) * step * sign in
  let segments :=
    push segments
      {| id := catId;
         ring := Ring1;
         name := node_name cat;
         description := node_description cat;
         startAngle := a0;
         endAngle := a1;
         parentId := None;
         categoryId := catId |} in
  match node_children cat with
  | None => segments
  | Some subs =>
      let subKeys := subs in
      let subStep := step / of_nat (List.length subKeys) in
      forEach (subCallback catId a0 subStep sign) subKeys 0 segments
  end.

(** [flattenToSegments] (lines 3-72): [sign] is [1] or [-1], and a record
    without keys gives the step [360 / 0], which no round uses. *)
Definition flattenToSegments (data : FlavorWheelData) (options : Options)
  : list WheelSegment :=
  let segments := [] in
  let total := 360 in
  let keys := data in
  let step := total / of_nat (List.length keys) in
  let sign := if clockwise options then 1 else -1 in
  forEach (catCallback options step sign) keys 0 segments.

Definition buildWheelSegments (data : FlavorWheelData) : list WheelSegment :=
  flattenToSegments data {| startAngleDeg := 0; clockwise := true |}.

Definition getSegmentsByRing (segments : list WheelSegment) (r : Ring)
  : list WheelSegment :=
  filter (fun s => ring_eqb (ring s) r) segments.

(** The browser window, when there is one. *)
Record Window : Type := mkWindow {
  innerWidth : float;
  innerHeight : float
}.

Record Position : Type := mkPosition { x : float; y : float }.

(** [a || b]: [b] when [a] is [0], [-0] or [NaN]. *)
Definition or_else (a b : float) : float :=
  if (a =? 0) || is_nan a then b else a.

(** [Math.hypot(a, b)].  ECMAScript leaves its last digit to the
    implementation; the square root of the sum of the squares, each
    operation rounded, is the correctly rounded result whenever the squares
    and their sum are exact, as they are for the small integers it is
    applied to below. *)
Definition Math_hypot (a b : float) : float :=
  if is_infinity a || is_infinity b then infinity else sqrt (a * a + b * b).

(** Position tooltip toward viewport center so it never covers the sector
    label.  [window = None] is the case [typeof window === 'undefined']. *)
Definition getTooltipPosition (window : option Window)
  (segmentViewportX segmentViewportY : float) : Position :=
  let vw :=
    match window with
    | Some w => innerWidth w / 2
    | None => 400
    end in
  let vh :=
    match window with
    | Some w => innerHeight w / 2
    | None => 400
    end in
  let dx := vw - segmentViewportX in
  let dy := vh - segmentViewportY in
  let len := or_else (Math_hypot dx dy) 1 in
  let offset := 100 in
  {| x := segmentViewportX + dx / len * offset;
     y := segmentViewportY + dy / len * offset |}.

End F64.

(* ================================================================== *)
(** * Part II: vocabulary of the properties *)
(* ================================================================== *)

Module Props.

Import WheelData.

(** The segments that a callback pushes, collected loop by loop:
    [emit g xs i] is what [forEach] appends when the callback appends
    [g x i] for the entry [x] of index [i]. *)
Fixpoint emit {A B : Type} (g : A -> nat -> list B) (xs : list A) (i : nat)
  : list B :=
  match xs with
  | [] => []
  | e :: xs' => g e i ++ emit g xs' (S i)
  end.

(** The object literals that the three loops push (lines 18-26, 37-46 and
    57-66 of [wheelData.ts]). *)
Definition catSegment (options : Options) (step sign : number)
  (entry : string * FlavorNode) (i : nat) : WheelSegment :=
  {| id := fst entry;
     ring := Ring1;
     name := node_name (snd entry);
     description := node_description (snd entry);
     startAngle := add (startAngleDeg options) (mul (mul (of_nat i) step) sign);
     endAngle :=
       add (startAngleDeg options)
           (mul (mul (add (of_nat i) (Fin 1)) step) sign);
     parentId := None;
     categoryId := fst entry |}.

Definition subSegment (catId : string) (a0 subStep sign : number)
  (entry : string * FlavorNode) (j : nat) : WheelSegment :=
  {| id := (catId ++ "-" ++ fst entry)%string;
     ring := Ring2;
     name := node_name (snd entry);
     description := node_description (snd entry);
     startAngle := add a0 (mul (mul (of_nat j) subStep) sign);
     endAngle := add a0 (mul (mul (add (of_nat j) (Fin 1)) subStep) sign);
     parentId := Some catId;
     categoryId := catId |}.

Definition leafSegment (catId subId : string) (b0 leafStep sign : number)
  (entry : string * FlavorNode) (k : nat) : WheelSegment :=
  {| id := (catId ++ "-" ++ subId ++ "-" ++ fst entry)%string;
     ring := Ring3;
     name := node_name (snd entry);
     description := node_description (snd entry);
     startAngle := add b0 (mul (mul (of_nat k) leafStep) sign);
     endAngle := add b0 (mul (mul (add (of_nat k) (Fin 1)) leafStep) sign);
     parentId := Some (catId ++ "-" ++ subId)%string;
     categoryId := catId |}.

(** What one round of the middle loop pushes: the segment of the
    subcategory, then its leaves. *)
Definition subBlock (catId : string) (a0 subStep sign : number)
  (entry : string * FlavorNode) (j : nat) : list WheelSegment :=
  let h := subSegment catId a0 subStep sign entry j in
  h :: match node_children (snd entry) with
       | None => []
       | Some leaves =>
           emit (fun e k =>
                   [leafSegment catId (fst entry) (startAngle h)
                      (div subStep (of_nat (List.length leaves))) sign e k])
                leaves 0
       end.

(** What one round of the outer loop pushes: the segment of the category,
    then the blocks of its subcategories. *)
Definition catBlock (options : Options) (step sign : number)
  (entry : string * FlavorNode) (i : nat) : list WheelSegment :=
  let h := catSegment options step sign entry i in
  h :: match node_children (snd entry) with
       | None => []
       | Some subs =>
           emit (subBlock (fst entry) (startAngle h)
                   (div step (of_nat (List.length subs))) sign)
                subs 0
       end.

(** [uniform a w sg j l]: the segments of [l] are the consecutive steps of
    width [w] in the direction [sg] counted from the angle [a], the first
    one being step number [j]. *)
Fixpoint uniform (a w sg : R) (j : nat) (l : list WheelSegment) : Prop :=
  match l with
  | [] => True
  | s :: rest =>
      startAngle s = Fin (a + INR j * w * sg) /\
      endAngle s = Fin (a + (INR j + 1) * w * sg) /\
      uniform a w sg (S j) rest
  end.

(** Both angles of the segment are finite numbers. *)
Definition finite_angles (s : WheelSegment) : Prop :=
  finite (startAngle s) /\ finite (endAngle s).

(** The taxonomy of the end-to-end scenario. *)
Definition scenario : FlavorWheelData :=
  [ ("a", mkFlavorNode "A" "d" (Some [("x", mkFlavorNode "X" "dx" None)]));
    ("b", mkFlavorNode "B" "d2" None) ]%string.

(** An angle normalized into [0, 360). *)
Definition normalize360 (a : R) : R := a - 360 * IZR (Int_part (a / 360)).

(** The label is upside down when its screen angle, normalized, lies
    strictly between 90 and 270. *)
Definition upside_down (screenAngle : R) : Prop :=
  90 < normalize360 screenAngle < 270.

(** The delta of a rotate-drag: [d - 360] above 180, [d + 360] below
    -180, else [d]. *)
Definition wrap_delta (d : R) : R :=
  if Rlt_dec 180 d then d - 360
  else if Rlt_dec d (-180) then d + 360
  else d.

(** A zoom value within the clamp range. *)
Definition zoom_in_range (z : number) : Prop :=
  exists v, z = Fin v /\ 5 / 10 <= v <= 3.


(** A touch-start event whose two contact points coincide. *)
Definition degenerate_pinch (ev : FlavorWheel.Event) : Prop :=
  match ev with
  | FlavorWheel.TouchStart [a; b] =>
      FlavorWheel.clientX a = FlavorWheel.clientX b /\
      FlavorWheel.clientY a = FlavorWheel.clientY b
  | _ => False
  end.

(** What the zoom track maintains as long as no pinch starts with
    coincident contact points: the zoom is within the clamp range, and a
    pinch baseline holds a positive distance and a zoom within range. *)
Definition zoom_invariant (st : FlavorWheel.ViewState) : Prop :=
  zoom_in_range (FlavorWheel.zoom st) /\
  match FlavorWheel.pinchRef st with
  | None => True
  | Some pinch =>
      (exists d, FlavorWheel.initialDistance pinch = Fin d /\ 0 < d) /\
      zoom_in_range (FlavorWheel.initialZoom pinch)
  end.

(** A color of the form [#rrggbb]. *)
Definition all_hex (s : string) : bool :=
  forallb (fun c => match Colors.hex_digit c with Some _ => true | None => false end)
          (list_ascii_of_string s).

Definition is_hex7 (s : string) : bool :=
  match s with
  | String "#"%char digits => Nat.eqb (String.length digits) 6 && all_hex digits
  | _ => false
  end.

(** The red, green and blue channels that a CSS color denotes: [#rrggbb],
    or the shorthand [#rgb] in which every digit stands for itself
    repeated. *)
Definition css_rgb (s : string) : option (Z * Z * Z) :=
  match s with
  | String "#"%char digits =>
      match map Colors.hex_digit (list_ascii_of_string digits) with
      | [Some r; Some g; Some b] =>
          Some (17 * r, 17 * g, 17 * b)%Z
      | [Some r1; Some r0; Some g1; Some g0; Some b1; Some b0] =>
          Some (16 * r1 + r0, 16 * g1 + g0, 16 * b1 + b0)%Z
      | _ => None
      end
  | _ => None
  end.

(** Channel by channel, [c] is at least as light as [base] and within
    range. *)
Definition lighter_or_equal (base c : string) : bool :=
  match css_rgb base, css_rgb c with
  | Some (r0, g0, b0), Some (r, g, b) =>
      ((r0 <=? r) && (r <=? 255) && (g0 <=? g) && (g <=? 255)
       && (b0 <=? b) && (b <=? 255))%Z
  | _, _ => false
  end.

(** *** Further vocabulary: nodes, keys and transformed segments *)

(** The number of children of a node; a node without [children] has
    none. *)
Definition count_children (n : FlavorNode) : nat :=
  match node_children n with
  | None => 0
  | Some l => List.length l
  end.

(** The number of nodes of the second level below the entries [l], and of
    the third level below the categories [data]. *)
Definition count_subs (l : list (string * FlavorNode)) : nat :=
  list_sum (map (fun e => count_children (snd e)) l).

Definition count_leaves (data : FlavorWheelData) : nat :=
  list_sum
    (map (fun e => match node_children (snd e) with
                   | None => 0%nat
                   | Some subs => count_subs subs
                   end) data).

(** The taxonomy cut below its third level: the nodes of the third level
    lose their children. *)
Definition prune_entries (f : FlavorNode -> FlavorNode)
  (l : list (string * FlavorNode)) : list (string * FlavorNode) :=
  map (fun e => (fst e, f (snd e))) l.

Definition prune_leaf (n : FlavorNode) : FlavorNode :=
  mkFlavorNode (node_name n) (node_description n) None.

Definition prune_sub (n : FlavorNode) : FlavorNode :=
  mkFlavorNode (node_name n) (node_description n)
    (option_map (prune_entries prune_leaf) (node_children n)).

Definition prune_cat (n : FlavorNode) : FlavorNode :=
  mkFlavorNode (node_name n) (node_description n)
    (option_map (prune_entries prune_sub) (node_children n)).

Definition prune (data : FlavorWheelData) : FlavorWheelData :=
  prune_entries prune_cat data.

(** Both angles of the segment are finite, they lie in order between [lo]
    and [hi], and the segment is no wider than [wmax]. *)
Definition angles_within (lo hi wmax : R) (s : WheelSegment) : Prop :=
  exists a b,
    startAngle s = Fin a /\ endAngle s = Fin b /\
    lo <= a /\ a <= b /\ b <= hi /\ b - a <= wmax.

(** A key without the separator [-] of the segment ids. *)
Fixpoint dash_free (s : string) : bool :=
  match s with
  | EmptyString => true
  | String c rest => negb (Ascii.eqb c "-") && dash_free rest
  end.

(** The keys of a record of nodes are distinct, as the keys of an object
    are. *)
Definition distinct_keys (l : list (string * FlavorNode)) : Prop :=
  NoDup (map fst l).

(** The keys of the categories and of the subcategories are free of [-],
    and so far as the flattener reads them the keys of every record are
    distinct. *)
Definition sub_keys_ok (e : string * FlavorNode) : Prop :=
  dash_free (fst e) = true /\
  match node_children (snd e) with
  | None => True
  | Some leaves => distinct_keys leaves
  end.

Definition cat_keys_ok (e : string * FlavorNode) : Prop :=
  dash_free (fst e) = true /\
  match node_children (snd e) with
  | None => True
  | Some subs => distinct_keys subs /\ Forall sub_keys_ok subs
  end.

Definition keys_ok (data : FlavorWheelData) : Prop :=
  distinct_keys data /\ Forall cat_keys_ok data.

(** The id of a segment up to its first [-]. *)
Fixpoint before_dash (s : string) : string :=
  match s with
  | EmptyString => EmptyString
  | String c rest =>
      if Ascii.eqb c "-" then EmptyString else String c (before_dash rest)
  end.

(** A taxonomy in which two segments get the same id: the category [a-b]
    and the subcategory [b] of the category [a]. *)
Definition colliding : FlavorWheelData :=
  [ ("a", mkFlavorNode "A" "d" (Some [("b", mkFlavorNode "B" "d" None)]));
    ("a-b", mkFlavorNode "AB" "d" None) ]%string.

(** The character of the hexadecimal digit of value [v], in lower case as
    [toString(16)] prints it, and the two digits of a channel. *)
Definition hex_char (v : Z) : ascii :=
  match v with
  | 0 => "0" | 1 => "1" | 2 => "2" | 3 => "3" | 4 => "4" | 5 => "5"
  | 6 => "6" | 7 => "7" | 8 => "8" | 9 => "9" | 10 => "a" | 11 => "b"
  | 12 => "c" | 13 => "d" | 14 => "e" | _ => "f"
  end%Z%char.

Definition hex2 (c : Z) : string :=
  String (hex_char (c / 16)) (String (hex_char (c mod 16)) EmptyString).

(** The digit of value [v] in front of the hexadecimal number [u]. *)
Definition hex_cons (v : Z) (u : Hexadecimal.uint) : Hexadecimal.uint :=
  match v with
  | 0 => Hexadecimal.D0 u | 1 => Hexadecimal.D1 u | 2 => Hexadecimal.D2 u
  | 3 => Hexadecimal.D3 u | 4 => Hexadecimal.D4 u | 5 => Hexadecimal.D5 u
  | 6 => Hexadecimal.D6 u | 7 => Hexadecimal.D7 u | 8 => Hexadecimal.D8 u
  | 9 => Hexadecimal.D9 u | 10 => Hexadecimal.Da u | 11 => Hexadecimal.Db u
  | 12 => Hexadecimal.Dc u | 13 => Hexadecimal.Dd u | 14 => Hexadecimal.De u
  | _ => Hexadecimal.Df u
  end%Z.

(** The channel [c] lightened by [amount] and rounded, as [lighten] prints
    it. *)
Definition lightened (c : Z) (amount : Q) : Z :=
  Colors.Math_round (Colors.lighten_channel c amount).

(** The clamp of a finite zoom value, [ZOOM_MIN <= v <= ZOOM_MAX]. *)
Definition clamp (v : R) : R := Rmax (5 / 10) (Rmin 3 v).

(** The Euclidean distance between two points. *)
Definition dist (x1 y1 x2 y2 : R) : R :=
  sqrt ((x2 - x1) * (x2 - x1) + (y2 - y1) * (y2 - y1)).

(** An event of the rotate-drag that cannot start a drag: a pointer-move, a
    pointer-up, a pointer-leave, or a pointer-down with a button other than
    the primary one. *)
Definition no_drag_start (ev : FlavorWheel.Event) : Prop :=
  match ev with
  | FlavorWheel.PointerMove _ | FlavorWheel.PointerUp
  | FlavorWheel.PointerLeave => True
  | FlavorWheel.PointerDown e => FlavorWheel.button e <> 0%Z
  | _ => False
  end.

End Props.

(** ** Vocabulary of the properties in doubles *)

Module Props64.

Import PrimFloat.
Import WheelData.
Import F64.
Local Open Scope float_scope.

(** The index of round [n] of a loop, as [forEach] counts it: [0] and [n]
    times [+ 1]. *)
Fixpoint index (n : nat) : float :=
  match n with
  | O => 0
  | S n' => index n' + 1
  end.

(** The object literals that the three loops push (lines 18-26, 37-46 and
    57-66 of [wheelData.ts]), in round [i]. *)
Definition catSegment (options : Options) (step sign : float)
  (entry : string * FlavorNode) (i : nat) : WheelSegment :=
  {| id := fst entry;
     ring := Ring1;
     name := node_name (snd entry);
     description := node_description (snd entry);
     startAngle := startAngleDeg options + index i * step * sign;
     endAngle := startAngleDeg options + (index i + 1) * step * sign;
     parentId := None;
     categoryId := fst entry |}.

Definition subSegment (catId : string) (a0 subStep sign : float)
  (entry : string * FlavorNode) (j : nat) : WheelSegment :=
  {| id := (catId ++ "-" ++ fst entry)%string;
     ring := Ring2;
     name := node_name (snd entry);
     description := node_description (snd entry);
     startAngle := a0 + index j * subStep * sign;
     endAngle := a0 + (index j + 1) * subStep * sign;
     parentId := Some catId;
     categoryId := catId |}.

Definition leafSegment (catId subId : string) (b0 leafStep sign : float)
  (entry : string * FlavorNode) (k : nat) : WheelSegment :=
  {| id := (catId ++ "-" ++ subId ++ "-" ++ fst entry)%string;
     ring := Ring3;
     name := node_name (snd entry);
     description := node_description (snd entry);
     startAngle := b0 + index k * leafStep * sign;
     endAngle := b0 + (index k + 1) * leafStep * sign;
     parentId := Some (catId ++ "-" ++ subId)%string;
     categoryId := catId |}.

(** What one round of the middle loop pushes, and one round of the outer
    loop. *)
Definition subBlock (catId : string) (a0 subStep sign : float)
  (entry : string * FlavorNode) (j : nat) : list WheelSegment :=
  let h := subSegment catId a0 subStep sign entry j in
  h :: match node_children (snd entry) with
       | None => []
       | Some leaves =>
           Props.emit
             (fun e k =>
                [leafSegment catId (fst entry) (startAngle h)
                   (subStep / of_nat (List.length leaves)) sign e k])
             leaves 0
       end.

Definition catBlock (options : Options) (step sign : float)
  (entry : string * FlavorNode) (i : nat) : list WheelSegment :=
  let h := catSegment options step sign entry i in
  h :: match node_children (snd entry) with
       | None => []
       | Some subs =>
           Props.emit
             (subBlock (fst entry) (startAngle h)
                (step / of_nat (List.length subs)) sign)
             subs 0
       end.

(** [uniform a w sg j l]: the segments of [l] are computed as the
    consecutive steps of width [w] in the direction [sg] from the angle
    [a], the first one being step number [j]: step [j] runs from
    [a + j * w * sg] to [a + (j + 1) * w * sg], every operation rounded. *)
Fixpoint uniform (a w sg : float) (j : nat) (l : list WheelSegment) : Prop :=
  match l with
  | [] => True
  | s :: rest =>
      startAngle s = a + index j * w * sg /\
      endAngle s = a + (index j + 1) * w * sg /\
      uniform a w sg (S j) rest
  end.












(** The square of the distance between two points given in doubles, as a
    rational number. *)
Definition distance2 (x1 y1 x2 y2 : float) : option Q :=
  match exact x1, exact y1, exact x2, exact y2 with
  | Some a, Some b, Some c, Some d =>
      Some (Qred ((c - a) * (c - a) + (d - b) * (d - b)))
  | _, _, _, _ => None
  end.

End Props64.

Import WheelData Props.

(* ================================================================== *)
(** * Part III: properties *)
(* ================================================================== *)

(** ** Numbers *)

Section NumFacts.

Lemma Rltb_true (a b : R) : a < b -> Rltb a b = true.
Proof. intros H. unfold Rltb. destruct (Rlt_dec a b); [reflexivity | contradiction]. Qed.

Lemma Rltb_false (a b : R) : b <= a -> Rltb a b = false.
Proof. intros H. unfold Rltb. destruct (Rlt_dec a b); [lra | reflexivity]. Qed.

Lemma Reqb_true (a b : R) : a = b -> Reqb a b = true.
Proof. intros H. unfold Reqb. destruct (Req_dec_T a b); [reflexivity | contradiction]. Qed.

Lemma Reqb_false (a b : R) : a <> b -> Reqb a b = false.
Proof. intros H. unfold Reqb. destruct (Req_dec_T a b); [contradiction | reflexivity]. Qed.

Lemma div_fin (a b : R) : b <> 0 -> div (Fin a) (Fin b) = Fin (a / b).
Proof. intros H. unfold div. rewrite Reqb_false by exact H. reflexivity. Qed.

Lemma div_of_nat (a : R) (n : nat) :
  n <> 0%nat -> div (Fin a) (of_nat n) = Fin (a / INR n).
Proof. intros H. apply div_fin. apply not_0_INR. exact H. Qed.

End NumFacts.

(** ** The flattener as a list of blocks *)

Section FlattenerShape.

Lemma forEach_emit {A B : Type} (f : A -> nat -> list B -> list B) :
  (forall e i st, f e i st = st ++ f e i []) ->
  forall xs i st, forEach f xs i st = st ++ emit (fun e i => f e i []) xs i.
Proof.
  intros Hf xs. induction xs as [| e xs IH]; intros i st; cbn [forEach emit].
  - now rewrite app_nil_r.
  - rewrite IH, (Hf e i st). now rewrite <- app_assoc.
Qed.

Lemma leafCallback_app catId subId b0 leafStep sign e k st :
  leafCallback catId subId b0 leafStep sign e k st =
  st ++ leafCallback catId subId b0 leafStep sign e k [].
Proof. destruct e as [leafId leaf]. reflexivity. Qed.

Lemma leafCallback_nil catId subId b0 leafStep sign e k :
  leafCallback catId subId b0 leafStep sign e k [] =
  [leafSegment catId subId b0 leafStep sign e k].
Proof. destruct e as [leafId leaf]. reflexivity. Qed.

(** The leaves pushed below one subcategory. *)
Lemma leaves_emit catId subId b0 leafStep sign leaves i st :
  forEach (leafCallback catId subId b0 leafStep sign) leaves i st =
  st ++ emit (fun e k => [leafSegment catId subId b0 leafStep sign e k])
             leaves i.
Proof.
  rewrite forEach_emit by (intros; apply leafCallback_app).
  f_equal. revert i. induction leaves as [| e l IH]; intros i; cbn [emit].
  - reflexivity.
  - now rewrite leafCallback_nil, IH.
Qed.

Lemma subCallback_block catId a0 subStep sign e j st :
  subCallback catId a0 subStep sign e j st =
  st ++ subBlock catId a0 subStep sign e j.
Proof.
  destruct e as [subId sub]. unfold subCallback, subBlock, push.
  cbn [fst snd]. destruct (node_children sub) as [leaves |].
  - rewrite leaves_emit. rewrite <- app_assoc. reflexivity.
  - reflexivity.
Qed.

Lemma subs_emit catId a0 subStep sign subs i st :
  forEach (subCallback catId a0 subStep sign) subs i st =
  st ++ emit (subBlock catId a0 subStep sign) subs i.
Proof.
  revert i st. induction subs as [| e l IH]; intros i st; cbn [forEach emit].
  - now rewrite app_nil_r.
  - rewrite IH, subCallback_block. now rewrite <- app_assoc.
Qed.

Lemma catCallback_block options step sign e i st :
  catCallback options step sign e i st =
  st ++ catBlock options step sign e i.
Proof.
  destruct e as [catId cat]. unfold catCallback, catBlock, push.
  cbn [fst snd]. destruct (node_children cat) as [subs |].
  - rewrite subs_emit. rewrite <- app_assoc. reflexivity.
  - reflexivity.
Qed.

Lemma cats_emit options step sign data i st :
  forEach (catCallback options step sign) data i st =
  st ++ emit (catBlock options step sign) data i.
Proof.
  revert i st. induction data as [| e l IH]; intros i st; cbn [forEach emit].
  - now rewrite app_nil_r.
  - rewrite IH, catCallback_block. now rewrite <- app_assoc.
Qed.

(** The output of the flattener is the concatenation of the blocks of the
    categories. *)
Lemma flattenToSegments_blocks data options :
  flattenToSegments data options =
  emit (catBlock options
          (div (Fin 360) (of_nat (List.length data)))
          (if clockwise options then Fin 1 else Fin (-1)))
       data 0.
Proof. unfold flattenToSegments. now rewrite cats_emit. Qed.

End FlattenerShape.

(** ** Lists of blocks *)

Section Blocks.

Context {A B : Type}.
Implicit Types (g : A -> nat -> list B) (xs : list A).



Lemma emit_singletons_length (mk : A -> nat -> B) xs i :
  List.length (emit (fun e j => [mk e j]) xs i) = List.length xs.
Proof.
  revert i. induction xs as [| e xs IH]; intros i; cbn [emit app List.length].
  - reflexivity.
  - now rewrite IH.
Qed.

End Blocks.

(** ** Rings of the blocks *)

Section Rings.


Lemma leaves_ring3 catId subId b0 leafStep sign leaves i :
  Forall (fun s => ring s = Ring3)
    (emit (fun e k => [leafSegment catId subId b0 leafStep sign e k]) leaves i).
Proof.
  revert i. induction leaves as [| e l IH]; intros i; cbn [emit app].
  - constructor.
  - constructor; [reflexivity | apply IH].
Qed.

(** A block of a subcategory: its segment of ring 2, then leaves. *)
Lemma subBlock_shape catId a0 subStep sign e j :
  exists leaves,
    subBlock catId a0 subStep sign e j =
    subSegment catId a0 subStep sign e j :: leaves /\
    Forall (fun s => ring s = Ring3) leaves.
Proof.
  unfold subBlock. destruct (node_children (snd e)) as [leaves |].
  - eexists. split; [reflexivity | apply leaves_ring3].
  - exists []. split; [reflexivity | constructor].
Qed.

Lemma filter_ring3 (l : list WheelSegment) :
  Forall (fun s => ring s = Ring3) l ->
  filter (fun s => Nat.eqb (ring_number (ring s)) 3) l = l /\
  filter (fun s => Nat.eqb (ring_number (ring s)) 2) l = [] /\
  filter (fun s => Nat.eqb (ring_number (ring s)) 1) l = [].
Proof.
  induction 1 as [| s l Hs Hl (IH3 & IH2 & IH1)]; cbn [filter].
  - auto.
  - rewrite Hs. cbn. rewrite IH3, IH2, IH1. auto.
Qed.

Lemma filter_ring1_subBlocks catId a0 subStep sign subs i :
  filter (fun s => Nat.eqb (ring_number (ring s)) 1)
         (emit (subBlock catId a0 subStep sign) subs i) = [].
Proof.
  revert i. induction subs as [| e l IH]; intros i; cbn [emit].
  - reflexivity.
  - destruct (subBlock_shape catId a0 subStep sign e i) as (lv & -> & Hlv).
    rewrite filter_app, IH. cbn [filter app]. cbn.
    destruct (filter_ring3 lv Hlv) as (_ & _ & ->). reflexivity.
Qed.

(** The segments of ring 1 of the output. *)
Lemma filter_ring1_catBlocks options step sign data i :
  filter (fun s => ring_eqb (ring s) Ring1)
         (emit (catBlock options step sign) data i) =
  emit (fun e j => [catSegment options step sign e j]) data i.
Proof.
  revert i. induction data as [| e l IH]; intros i; cbn [emit].
  - reflexivity.
  - rewrite filter_app, IH. unfold catBlock at 1. cbn [filter].
    cbn [ring catSegment ring_eqb ring_number Nat.eqb app].
    f_equal.
    destruct (node_children (snd e)) as [subs |]; cbn [filter]; [| reflexivity].
    unfold ring_eqb. cbn [ring_number].
    now rewrite filter_ring1_subBlocks.
Qed.

End Rings.

(** ** Uniform steps *)

Section Uniform.

Lemma Fin_eq (a b : R) : a = b -> Fin a = Fin b.
Proof. now intros ->. Qed.

Lemma uniform_finite (a w sg : R) (l : list WheelSegment) : forall j,
  uniform a w sg j l -> Forall finite_angles l.
Proof.
  induction l as [| s l IH]; intros j H; constructor.
  - destruct H as (Hs & He & _). split; eexists; eassumption.
  - destruct H as (_ & _ & H). exact (IH _ H).
Qed.

Lemma uniform_emit {A : Type} (mk : A -> nat -> WheelSegment) (a w sg : R) :
  (forall e j, startAngle (mk e j) = Fin (a + INR j * w * sg) /\
               endAngle (mk e j) = Fin (a + (INR j + 1) * w * sg)) ->
  forall xs j, uniform a w sg j (emit (fun e j => [mk e j]) xs j).
Proof.
  intros Hmk xs. induction xs as [| e xs IH]; intros j; cbn [emit app uniform].
  - exact I.
  - destruct (Hmk e j) as (Hs & He). auto.
Qed.

End Uniform.

(** ** The blocks of a flattening with finite parameters *)

Section FiniteBlocks.

Variables (s st sg : R) (cw : bool).

Local Abbreviation options := {| startAngleDeg := Fin s; clockwise := cw |}.

Lemma leaves_uniform catId subId (b w : R) leaves k :
  uniform b w sg k
    (emit (fun e k => [leafSegment catId subId (Fin b) (Fin w) (Fin sg) e k])
          leaves k).
Proof. apply uniform_emit. intros e j. split; reflexivity. Qed.

(** The leaves of a subcategory, when it has some, are equal steps of its
    span. *)
Lemma subBlock_leaves catId (a w : R) e j leaves :
  node_children (snd e) = Some leaves -> leaves <> [] ->
  exists lv,
    subBlock catId (Fin a) (Fin w) (Fin sg) e j =
    subSegment catId (Fin a) (Fin w) (Fin sg) e j :: lv /\
    List.length lv = List.length leaves /\
    Forall (fun c => ring c = Ring3) lv /\
    uniform (a + INR j * w * sg) (w / INR (List.length leaves)) sg 0 lv.
Proof.
  intros Hc Hne. unfold subBlock. rewrite Hc.
  rewrite div_of_nat by (destruct leaves; [congruence | discriminate]).
  eexists. split; [reflexivity |]. split; [apply emit_singletons_length |].
  split; [apply leaves_ring3 |]. apply leaves_uniform.
Qed.

Lemma subBlock_no_leaves catId (a w : R) e j :
  node_children (snd e) = None \/ node_children (snd e) = Some [] ->
  subBlock catId (Fin a) (Fin w) (Fin sg) e j =
  [subSegment catId (Fin a) (Fin w) (Fin sg) e j].
Proof. unfold subBlock. intros [-> | ->]; reflexivity. Qed.

Lemma children_cases (c : option (list (string * FlavorNode))) :
  (c = None \/ c = Some []) \/ exists l, c = Some l /\ l <> [].
Proof.
  destruct c as [[| e l] |]; auto.
  right. exists (e :: l). split; [reflexivity | discriminate].
Qed.

Lemma subBlock_finite catId (a w : R) e j :
  Forall finite_angles (subBlock catId (Fin a) (Fin w) (Fin sg) e j).
Proof.
  destruct (children_cases (node_children (snd e))) as [H | (lv & H & Hne)].
  - rewrite subBlock_no_leaves by exact H.
    constructor; [| constructor]. split; eexists; reflexivity.
  - destruct (subBlock_leaves catId a w e j lv H Hne) as (l & -> & _ & _ & Hu).
    constructor; [split; eexists; reflexivity |].
    eapply uniform_finite. exact Hu.
Qed.

Lemma subBlocks_finite catId (a w : R) subs j :
  Forall finite_angles (emit (subBlock catId (Fin a) (Fin w) (Fin sg)) subs j).
Proof.
  revert j. induction subs as [| e l IH]; intros j; cbn [emit].
  - constructor.
  - apply Forall_app. split; [apply subBlock_finite | apply IH].
Qed.

Lemma catBlock_finite e i :
  Forall finite_angles (catBlock options (Fin st) (Fin sg) e i).
Proof.
  unfold catBlock. constructor; [split; eexists; reflexivity |].
  destruct (node_children (snd e)) as [[| e' subs] |].
  - constructor.
  - rewrite div_of_nat by discriminate. apply subBlocks_finite.
  - constructor.
Qed.

Lemma catBlocks_finite data i :
  Forall finite_angles (emit (catBlock options (Fin st) (Fin sg)) data i).
Proof.
  revert i. induction data as [| e l IH]; intros i; cbn [emit].
  - constructor.
  - apply Forall_app. split; [apply catBlock_finite | apply IH].
Qed.

End FiniteBlocks.

(** ** Steps and occurrences *)

Section Steps.

(** Step [k] of [n] equal steps of a span of width [w] lies within it. *)
Lemma step_within (w : R) (n k : nat) :
  0 <= w -> (k < n)%nat ->
  0 <= w / INR n /\
  0 <= INR k * (w / INR n) /\
  (INR k + 1) * (w / INR n) <= w.
Proof.
  intros Hw Hk.
  assert (Hn : 0 < INR n) by (apply lt_0_INR; lia).
  assert (Hk1 : INR k + 1 <= INR n).
  { rewrite <- S_INR. apply le_INR. lia. }
  assert (Hk0 : 0 <= INR k) by apply pos_INR.
  assert (Hq : 0 <= w / INR n).
  { apply Rmult_le_pos; [exact Hw |]. left. now apply Rinv_0_lt_compat. }
  assert (Hwq : w = INR n * (w / INR n)) by (field; lra).
  repeat split; [exact Hq | now apply Rmult_le_pos |].
  rewrite Hwq at 2. apply Rmult_le_compat_r; assumption.
Qed.


End Steps.

(** ** Properties of the flattener *)

Section FlattenerProperties.

Lemma sign_fin (cw : bool) :
  (if cw then Fin 1 else Fin (-1)) = Fin (if cw then 1 else -1).
Proof. now destruct cw. Qed.

(** The output for a non-empty taxonomy, as blocks with finite steps. *)
Lemma flattenToSegments_finite_blocks data (s : R) (cw : bool) :
  data <> [] ->
  flattenToSegments data {| startAngleDeg := Fin s; clockwise := cw |} =
  emit (catBlock {| startAngleDeg := Fin s; clockwise := cw |}
          (Fin (360 / INR (List.length data)))
          (Fin (if cw then 1 else -1)))
       data 0.
Proof.
  intros Hne. rewrite flattenToSegments_blocks. cbn [clockwise].
  rewrite sign_fin. rewrite div_of_nat; [reflexivity |].
  destruct data; [congruence | discriminate].
Qed.

(** Runs the three loops of the flattener on the scenario: the two
    divisions are by the non-zero counts 2 and 1. *)
Ltac run_flattener :=
  unfold flattenToSegments, scenario;
  cbn [List.length];
  rewrite div_of_nat by discriminate;
  cbn [forEach catCallback node_children node_name node_description push app
       startAngleDeg clockwise List.length];
  rewrite div_of_nat by discriminate;
  cbn [forEach subCallback node_children node_name node_description push app];
  unfold of_nat; cbn [add mul INR String.append].

(** C6.  The end-to-end scenario: the categories [a] and [b] take the
    halves [0, 180] and [180, 360] of the circle, and the only child [x]
    of [a] takes the whole span [0, 180] of its parent, with [a] both as
    its category and as its parent. *)
Theorem scenario_segments :
  buildWheelSegments scenario =
  [ mkWheelSegment "a" Ring1 "A" "d" (Fin 0) (Fin 180) None "a";
    mkWheelSegment "a-x" Ring2 "X" "dx" (Fin 0) (Fin 180) (Some "a"%string) "a";
    mkWheelSegment "b" Ring1 "B" "d2" (Fin 180) (Fin 360) None "b" ]%string.
Proof.
  unfold buildWheelSegments. run_flattener.
  repeat (apply f_equal2; [ | try reflexivity ]).
  all: try reflexivity.
  all: f_equal; apply Fin_eq; lra.
Qed.

End FlattenerProperties.

(** ** The flattener in doubles: the shape of the output *)

Section Flattener64.

Import PrimFloat F64 Props64.
Local Open Scope float_scope.







(** *** Rings of the blocks *)












(** *** Equal computed steps *)



(** *** Entries of the blocks *)




(** *** Children *)




(** *** Parents and categories *)






End Flattener64.

(** ** The flattener in doubles: layout, parents and categories *)

Section Layout64.

Import PrimFloat F64 Props64.
Local Open Scope float_scope.
#[local] Set Warnings "-inexact-float".





(** The scenario in doubles: the flattener computes the same three
    segments, with the angles 0, 180 and 360. *)
Example scenario_segments_doubles :
  map (fun s => (id s, startAngle s, endAngle s))
      (F64.buildWheelSegments scenario)
  = [ ("a", 0, 180); ("a-x", 0, 180); ("b", 180, 360) ]%string.
Proof. reflexivity. Qed.

(** The rational numbers that some doubles denote. *)
Example exact_values :
  exact 360 = Some 360%Q /\ exact (-0.5) = Some (-1 # 2)%Q /\
  exact 0.1 = Some (3602879701896397 # 36028797018963968)%Q /\
  exact (0 / 0) = None /\ exact (1 / 0) = None.
Proof. repeat split; vm_compute; reflexivity. Qed.

End Layout64.

(** ** Remainders and normalized angles *)

Section Remainder.

Lemma normalize360_range (a : R) : 0 <= normalize360 a < 360.
Proof.
  unfold normalize360.
  destruct (base_Int_part (a / 360)) as (Hlo & Hhi).
  assert (Ha : a = 360 * (a / 360)) by (field; lra).
  split; lra.
Qed.

Lemma normalize360_eq (a y : R) (k : Z) :
  0 <= y < 360 -> a = y + 360 * IZR k -> normalize360 a = y.
Proof.
  intros Hy Ha. unfold normalize360.
  assert (Hk : k = Int_part (a / 360)).
  { apply Int_part_spec. rewrite Ha.
    replace ((y + 360 * IZR k) / 360) with (y / 360 + IZR k) by (field; lra).
    assert (0 <= y / 360 < 1) by (split; lra). lra. }
  rewrite <- Hk. lra.
Qed.

Lemma normalize360_decompose (a : R) :
  exists k : Z, a = normalize360 a + 360 * IZR k.
Proof. exists (Int_part (a / 360)). unfold normalize360. ring. Qed.

Lemma trunc_nonneg (v : R) : 0 <= v -> trunc v = Int_part v.
Proof. intros H. unfold trunc. destruct (Rle_dec 0 v); [reflexivity | lra]. Qed.

Lemma trunc_neg (v : R) : v < 0 -> trunc v = (- Int_part (- v))%Z.
Proof. intros H. unfold trunc. destruct (Rle_dec 0 v); [lra | reflexivity]. Qed.

(** On a non-negative angle, [% 360] normalizes. *)
Lemma rem360_nonneg (a : R) :
  0 <= a -> rem (Fin a) (Fin 360) = Fin (normalize360 a).
Proof.
  intros Ha. unfold rem. rewrite Reqb_false by lra.
  rewrite trunc_nonneg; [reflexivity |].
  apply Rmult_le_pos; lra.
Qed.

(** On a negative angle, [% 360] is negative or zero: it is the opposite of
    the normalized opposite angle. *)
Lemma rem360_neg (a : R) :
  a < 0 -> rem (Fin a) (Fin 360) = Fin (- normalize360 (- a)).
Proof.
  intros Ha. unfold rem. rewrite Reqb_false by lra.
  rewrite trunc_neg by lra.
  apply Fin_eq. unfold normalize360. rewrite opp_IZR.
  replace (- a / 360) with (- (a / 360)) by (field; lra). ring.
Qed.

Lemma rem360_eq (a y : R) (k : Z) :
  0 <= a -> 0 <= y < 360 -> a = y + 360 * IZR k ->
  rem (Fin a) (Fin 360) = Fin y.
Proof.
  intros Ha Hy Hk. rewrite rem360_nonneg by exact Ha.
  apply Fin_eq. now apply (normalize360_eq a y k).
Qed.

End Remainder.

(** ** The rotation of a tangential label *)

Section LabelRotation.

Import FlavorWheel.

Lemma lt_fin (a b : R) : lt (Fin a) (Fin b) = Rltb a b.
Proof. reflexivity. Qed.

Lemma gt_fin (a b : R) : gt (Fin a) (Fin b) = Rltb b a.
Proof. reflexivity. Qed.

(** The label is flipped exactly when the remainder lies strictly between
    90 and 270. *)
Lemma tangentialLabelRotation_cases (midDeg wheelRotation r : R) :
  rem (Fin (midDeg + 90 + wheelRotation + 360)) (Fin 360) = Fin r ->
  (90 < r < 270 /\
   tangentialLabelRotation (Fin midDeg) (Fin wheelRotation)
   = Fin (midDeg + 90 + 180)) \/
  (~ 90 < r < 270 /\
   tangentialLabelRotation (Fin midDeg) (Fin wheelRotation)
   = Fin (midDeg + 90)).
Proof.
  intros Hr. unfold tangentialLabelRotation. cbn [add]. rewrite Hr.
  rewrite gt_fin, lt_fin. unfold Rltb.
  destruct (Rlt_dec 90 r), (Rlt_dec r 270); cbn [andb];
    solve [left; split; [lra | reflexivity] | right; split; [lra | reflexivity]].
Qed.

(** In exact arithmetic: as long as the tangent angle plus the rotation is
    at least -360, the rendered label is upright.  (In doubles the sum is
    rounded before the remainder is taken, and within one unit in the last
    place of 90 and 270 the flip can be missed.) *)
Lemma label_upright_from_minus_360 (midDeg wheelRotation : R) :
  0 <= midDeg + 90 + wheelRotation + 360 ->
  exists t,
    tangentialLabelRotation (Fin midDeg) (Fin wheelRotation) = Fin t /\
    ~ upside_down (t + wheelRotation).
Proof.
  intros Hx. set (a := midDeg + 90 + wheelRotation + 360) in *.
  pose proof (rem360_nonneg a Hx) as Hrem.
  pose proof (normalize360_range a) as Hr.
  destruct (normalize360_decompose a) as (k & Hk).
  set (r := normalize360 a) in *.
  destruct (tangentialLabelRotation_cases midDeg wheelRotation r Hrem)
    as [(Hflip & ->) | (Hkeep & ->)]; eexists; (split; [reflexivity |]);
    unfold upside_down.
  - destruct (Rlt_dec r 180).
    + rewrite (normalize360_eq _ (r + 180) (k - 1)); [lra | lra |].
      rewrite minus_IZR. unfold a in Hk. lra.
    + rewrite (normalize360_eq _ (r - 180) k); [lra | lra |].
      unfold a in Hk. lra.
  - rewrite (normalize360_eq _ r (k - 1)); [lra | lra |].
    rewrite minus_IZR. unfold a in Hk. lra.
Qed.

(** Below -360, the remainder is negative and the label is never flipped. *)
Lemma label_never_flipped_below_minus_360 (midDeg wheelRotation : R) :
  midDeg + 90 + wheelRotation + 360 < 0 ->
  tangentialLabelRotation (Fin midDeg) (Fin wheelRotation) = Fin (midDeg + 90).
Proof.
  intros Hx.
  pose proof (rem360_neg _ Hx) as Hrem.
  pose proof (normalize360_range (- (midDeg + 90 + wheelRotation + 360))) as Hr.
  destruct (tangentialLabelRotation_cases _ _ _ Hrem)
    as [(Hflip & _) | (_ & ->)]; [lra | reflexivity].
Qed.

(** C2, on the code: two full turns counter-clockwise bring the wheel back
    to where it was, and yet the label at mid angle 90, which is flipped to
    360 when the rotation is 0, is left at 180 when the rotation is -720:
    on screen its angle is 180, upside down. *)
Theorem label_upside_down_after_two_turns_back :
  tangentialLabelRotation (Fin 90) (Fin 0) = Fin (90 + 90 + 180) /\
  ~ upside_down (90 + 90 + 180 + 0) /\
  tangentialLabelRotation (Fin 90) (Fin (-720)) = Fin (90 + 90) /\
  normalize360 (90 + 90 + -720) = 180 /\
  upside_down (90 + 90 + -720).
Proof.
  assert (H0 : rem (Fin (90 + 90 + 0 + 360)) (Fin 360) = Fin 180).
  { apply (rem360_eq _ 180 1); lra. }
  assert (Hn : normalize360 (90 + 90 + -720) = 180).
  { apply (normalize360_eq _ 180 (-2)); lra. }
  repeat split.
  - destruct (tangentialLabelRotation_cases 90 0 180 H0)
      as [(_ & ->) | (H & _)]; [reflexivity | lra].
  - unfold upside_down.
    rewrite (normalize360_eq _ 0 1); lra.
  - apply label_never_flipped_below_minus_360. lra.
  - exact Hn.
  - unfold upside_down. rewrite Hn. lra.
  - unfold upside_down. rewrite Hn. lra.
Qed.

End LabelRotation.

(** ** Rotate-drag *)

Section RotateDrag.

Import FlavorWheel.

(** X18.  The raw angle of a pointer event lies in [0, 360). *)
Lemma angleFromEvent_range (e : PointerEvent) (t : R) :
  polarDeg e = Fin t -> -180 <= t <= 180 ->
  exists A, angleFromEvent e = Fin A /\ 0 <= A < 360.
Proof.
  intros Ht Hrange. unfold angleFromEvent. rewrite Ht. cbn [add].
  rewrite rem360_nonneg by lra.
  eexists. split; [reflexivity | apply normalize360_range].
Qed.

(** The two conditional corrections of the delta. *)
Lemma wrap_delta_code (delta : number) (d : R) :
  delta = Fin d ->
  (let delta := if gt delta (Fin 180) then sub delta (Fin 360) else delta in
   if lt delta (Fin (-180)) then add delta (Fin 360) else delta)
  = Fin (wrap_delta d).
Proof.
  intros ->. cbv zeta. rewrite gt_fin. unfold wrap_delta, Rltb.
  destruct (Rlt_dec 180 d) as [Hd | Hd]; cbn [sub]; rewrite lt_fin; unfold Rltb.
  - destruct (Rlt_dec (d - 360) (-180)); [lra | reflexivity].
  - destruct (Rlt_dec d (-180)); reflexivity.
Qed.

Lemma wrap_delta_bounds (d : R) :
  -360 < d < 360 ->
  -180 <= wrap_delta d <= 180 /\
  (wrap_delta d = d \/ wrap_delta d = d - 360 \/ wrap_delta d = d + 360).
Proof.
  intros Hd. unfold wrap_delta.
  destruct (Rlt_dec 180 d); [split; [lra | auto] |].
  destruct (Rlt_dec d (-180)); split; solve [lra | auto].
Qed.

Lemma wrap_delta_small (d : R) : Rabs d < 180 -> wrap_delta d = d.
Proof.
  intros Hd. apply Rabs_def2 in Hd. unfold wrap_delta.
  destruct (Rlt_dec 180 d); [lra |].
  destruct (Rlt_dec d (-180)); [lra | reflexivity].
Qed.

(** A pointer-move after a pointer-down, in terms of the raw angles. *)
Lemma drag_rotation_eq (st : ViewState) (e0 e1 : PointerEvent) (R0 A0 A1 : R) :
  button e0 = 0%Z ->
  rotation st = Fin R0 ->
  angleFromEvent e0 = Fin A0 ->
  angleFromEvent e1 = Fin A1 ->
  rotation (handlePointerMove e1 (handlePointerDown e0 st))
  = Fin (R0 + wrap_delta (A1 - A0)).
Proof.
  intros Hb HR H0 H1.
  unfold handlePointerDown. rewrite Hb. cbn [Z.eqb negb].
  unfold handlePointerMove. cbn [dragRef setDragRef startAngle startRotation].
  rewrite H0, H1, HR.
  pose proof (wrap_delta_code (sub (Fin A1) (Fin A0)) (A1 - A0) eq_refl) as Hw.
  cbv zeta in Hw. cbv zeta. rewrite Hw. reflexivity.
Qed.

(** C3, as amended.  A pointer-move at the raw angle [A1], after a
    pointer-down with the primary button at the raw angle [A0] on a wheel
    of rotation [R0], sets the rotation to [R0] plus the delta [A1 - A0]
    brought into the closed range [-180, 180]: 360 is subtracted when the
    delta is above 180 and added when it is below -180, and a delta from
    -180 to 180, both ends included, is left as it is.  When
    [|A1 - A0| < 180] the new rotation is [R0 + (A1 - A0)], and from 350 to
    10 the delta is +20. *)
Theorem drag_rotation (st : ViewState) (e0 e1 : PointerEvent)
  (R0 A0 A1 : R) :
  button e0 = 0%Z ->
  rotation st = Fin R0 ->
  angleFromEvent e0 = Fin A0 -> 0 <= A0 < 360 ->
  angleFromEvent e1 = Fin A1 -> 0 <= A1 < 360 ->
  exists d,
    rotation (handlePointerMove e1 (handlePointerDown e0 st)) = Fin (R0 + d) /\
    -180 <= d <= 180 /\
    (d = A1 - A0 \/ d = A1 - A0 - 360 \/ d = A1 - A0 + 360) /\
    (Rabs (A1 - A0) < 180 -> d = A1 - A0) /\
    (A0 = 350 -> A1 = 10 -> d = 20) /\
    (180 < A1 - A0 -> d = A1 - A0 - 360) /\
    (A1 - A0 < -180 -> d = A1 - A0 + 360) /\
    (-180 <= A1 - A0 <= 180 -> d = A1 - A0) /\
    (A1 - A0 = -180 -> d = -180) /\
    (A1 - A0 = 180 -> d = 180).
Proof.
  intros Hb HR H0 HA0 H1 HA1.
  exists (wrap_delta (A1 - A0)).
  split; [now apply drag_rotation_eq |].
  destruct (wrap_delta_bounds (A1 - A0)) as (Hbounds & Hcases); [lra |].
  split; [exact Hbounds |]. split; [exact Hcases |].
  split; [apply wrap_delta_small |].
  split.
  { intros -> ->. unfold wrap_delta.
    destruct (Rlt_dec 180 (10 - 350)); [lra |].
    destruct (Rlt_dec (10 - 350) (-180)); lra. }
  unfold wrap_delta.
  destruct (Rlt_dec 180 (A1 - A0)) as [Hhi | Hhi];
    [repeat split; intros; lra |].
  destruct (Rlt_dec (A1 - A0) (-180)) as [Hlo | Hlo];
    repeat split; intros; lra.
Qed.

Lemma angle_350 :
  angleFromEvent {| button := 0; polarDeg := Fin (-100) |} = Fin 350.
Proof. unfold angleFromEvent. cbn [polarDeg add]. apply (rem360_eq _ 350 0); lra. Qed.

Lemma angle_10 :
  angleFromEvent {| button := 0; polarDeg := Fin (-80) |} = Fin 10.
Proof. unfold angleFromEvent. cbn [polarDeg add]. apply (rem360_eq _ 10 1); lra. Qed.

Lemma angle_180 :
  angleFromEvent {| button := 0; polarDeg := Fin 90 |} = Fin 180.
Proof. unfold angleFromEvent. cbn [polarDeg add]. apply (rem360_eq _ 180 1); lra. Qed.

Lemma angle_0 :
  angleFromEvent {| button := 0; polarDeg := Fin (-90) |} = Fin 0.
Proof. unfold angleFromEvent. cbn [polarDeg add]. apply (rem360_eq _ 0 1); lra. Qed.

(** A drag from 350 to 10 on the wheel at mount. *)
Lemma drag_rotation_witness :
  exists d,
    rotation
      (handlePointerMove {| button := 0; polarDeg := Fin (-80) |}
         (handlePointerDown {| button := 0; polarDeg := Fin (-100) |}
            initialState))
    = Fin (0 + d) /\
    -180 <= d <= 180 /\
    (d = 10 - 350 \/ d = 10 - 350 - 360 \/ d = 10 - 350 + 360) /\
    (Rabs (10 - 350) < 180 -> d = 10 - 350) /\
    (350 = 350 -> 10 = 10 -> d = 20) /\
    (180 < 10 - 350 -> d = 10 - 350 - 360) /\
    (10 - 350 < -180 -> d = 10 - 350 + 360) /\
    (-180 <= 10 - 350 <= 180 -> d = 10 - 350) /\
    (10 - 350 = -180 -> d = -180) /\
    (10 - 350 = 180 -> d = 180).
Proof.
  apply (drag_rotation initialState
           {| button := 0; polarDeg := Fin (-100) |}
           {| button := 0; polarDeg := Fin (-80) |} 0 350 10).
  - reflexivity.
  - reflexivity.
  - exact angle_350.
  - lra.
  - exact angle_10.
  - lra.
Defined.

(** C3, as stated, fails at a delta of exactly -180: dragging from the raw
    angle 180 to the raw angle 0 sets the rotation to -180, and -180 is
    not in the half-open range (-180, 180]. *)
Lemma drag_half_turn_back_is_minus_180 :
  ~ (forall (st : ViewState) (e0 e1 : PointerEvent) (R0 A0 A1 : R),
        button e0 = 0%Z ->
        rotation st = Fin R0 ->
        angleFromEvent e0 = Fin A0 -> 0 <= A0 < 360 ->
        angleFromEvent e1 = Fin A1 -> 0 <= A1 < 360 ->
        exists d,
          rotation (handlePointerMove e1 (handlePointerDown e0 st))
          = Fin (R0 + d) /\
          -180 < d <= 180).
Proof.
  intros H.
  destruct (H initialState
              {| button := 0; polarDeg := Fin 90 |}
              {| button := 0; polarDeg := Fin (-90) |} 0 180 0)
    as (d & Hrot & Hd);
    [reflexivity | reflexivity | exact angle_180 | lra | exact angle_0 | lra |].
  rewrite (drag_rotation_eq initialState _ _ 0 180 0) in Hrot;
    [| reflexivity | reflexivity | exact angle_180 | exact angle_0].
  injection Hrot as Hrot. unfold wrap_delta in Hrot.
  destruct (Rlt_dec 180 (0 - 180)); [lra |].
  destruct (Rlt_dec (0 - 180) (-180)); lra.
Qed.

End RotateDrag.

(** ** Zoom: wheel and pinch *)

Section Zoom.

Import FlavorWheel.

(** The clamp of a finite value is within range. *)
Lemma clamp_in_range (v : R) :
  zoom_in_range (Math_min ZOOM_MAX (Math_max ZOOM_MIN (Fin v))).
Proof.
  unfold ZOOM_MAX, ZOOM_MIN, Math_max, Math_min, lt, Rltb, zoom_in_range.
  destruct (Rlt_dec (5 / 10) v).
  - destruct (Rlt_dec v 3); eexists; (split; [reflexivity | lra]).
  - destruct (Rlt_dec (5 / 10) 3); eexists; (split; [reflexivity | lra]).
Qed.

Lemma nan_not_in_range : ~ zoom_in_range NaN.
Proof. intros (v & H & _). discriminate. Qed.

(** The distance between two contact points is finite, and zero exactly
    when they coincide. *)
Lemma getTouchDistance_fin (a b : Touch) :
  exists d, getTouchDistance a b = Fin d /\ 0 <= d /\
            (d = 0 <-> clientX a = clientX b /\ clientY a = clientY b).
Proof.
  unfold getTouchDistance. cbn [sub Math_hypot].
  set (u := clientX b - clientX a). set (v := clientY b - clientY a).
  exists (sqrt (u * u + v * v)). split; [reflexivity |].
  assert (Hsq : 0 <= u * u + v * v) by nra.
  split; [apply sqrt_pos |]. split.
  - intros H0. apply sqrt_eq_0 in H0; [| exact Hsq].
    assert (u = 0) by nra. assert (v = 0) by nra. unfold u, v in *. lra.
  - intros (Hx & Hy). replace (u * u + v * v) with 0.
    + apply sqrt_0.
    + unfold u, v. rewrite Hx, Hy. ring.
Qed.

Lemma getTouchDistance_same (a : Touch) : getTouchDistance a a = Fin 0.
Proof.
  destruct (getTouchDistance_fin a a) as (d & Hd & _ & Hz).
  rewrite Hd. apply Fin_eq. apply Hz. split; reflexivity.
Qed.

(** Every handler preserves the invariant of the zoom track, a touch-start
    with coincident contact points excepted. *)
Lemma handle_zoom_invariant (window : option Window) (st : ViewState)
  (ev : Event) :
  ~ degenerate_pinch ev -> zoom_invariant st ->
  zoom_invariant (handle window st ev).
Proof.
  intros Hev (Hz & Hp). destruct ev; cbn [handle].
  - (* pointer-down *)
    unfold handlePointerDown. destruct (negb _); split; assumption.
  - (* pointer-move *)
    unfold handlePointerMove. destruct (dragRef st); split; assumption.
  - split; assumption.
  - split; assumption.
  - (* wheel *)
    split; [| exact Hp]. cbn [handleWheel zoom setZoom].
    destruct Hz as (z & -> & _). cbn [sub mul ZOOM_SENSITIVITY].
    apply clamp_in_range.
  - (* touch-start *)
    unfold handleTouchStart.
    destruct touches as [| a [| b [| c touches]]]; try (split; assumption).
    split; [exact Hz |]. cbn [pinchRef setPinchRef initialDistance initialZoom].
    split; [| exact Hz].
    destruct (getTouchDistance_fin a b) as (d & Hd & Hd0 & Hd1).
    exists d. split; [exact Hd |].
    destruct (Req_dec_T d 0) as [E | E]; [| lra].
    exfalso. apply Hev. cbn. now apply Hd1.
  - (* touch-move *)
    unfold handleTouchMove.
    destruct touches as [| a [| b [| c touches]]]; try (split; assumption).
    destruct (pinchRef st) as [pinch |] eqn:Hpinch; [| split; [assumption | now rewrite Hpinch]].
    split; [| cbn [pinchRef setZoom]; now rewrite Hpinch].
    cbn [zoom setZoom].
    destruct Hp as ((d0 & -> & Hd0) & (z0 & -> & _)).
    destruct (getTouchDistance_fin a b) as (d & -> & _).
    rewrite div_fin by lra. cbn [mul]. apply clamp_in_range.
  - (* touch-end *)
    unfold handleTouchEndWithE. destruct (Nat.ltb _ _); split; try assumption.
    exact I.
  - unfold handleTouchEndWithE. destruct (Nat.ltb _ _); split; try assumption.
    exact I.
  - (* reset *)
    split; [| exact Hp]. cbn. exists 1. split; [reflexivity | lra].
  - unfold handleSegmentPointerEnter. destruct (dragRef st); split; assumption.
  - unfold handleSegmentPointerMove. destruct (tooltip st); [| split; assumption].
    destruct (String.eqb _ _); split; assumption.
  - split; assumption.
  - unfold handleSegmentClick. destruct (tooltip st); [| split; assumption].
    destruct (String.eqb _ _); split; assumption.
Qed.

Lemma initial_zoom_invariant : zoom_invariant initialState.
Proof. split; [exists 1; split; [reflexivity | lra] | exact I]. Qed.

(** X22.  The zoom stays within the clamp range along every sequence of
    events in which no pinch starts with coincident contact points. *)
Lemma zoom_clamped_without_degenerate_pinch (window : option Window)
  (events : list Event) :
  Forall (fun ev => ~ degenerate_pinch ev) events ->
  zoom_in_range (zoom (run window initialState events)).
Proof.
  intros Hev.
  enough (H : zoom_invariant (run window initialState events)) by apply H.
  unfold run. generalize initial_zoom_invariant.
  generalize initialState as st.
  induction Hev as [| ev events Hne Hev IH]; intros st Hst; cbn [fold_left].
  - exact Hst.
  - apply IH. now apply handle_zoom_invariant.
Qed.

(** C4, on the code: a pinch that starts and moves with coincident contact
    points divides a zero distance by a zero baseline; the clamp lets the
    resulting [NaN] through, and the zoom leaves the range [0.5, 3]. *)
Theorem zoom_nan_after_degenerate_pinch :
  let p := {| clientX := 100; clientY := 200 |} in
  let st := run None initialState [TouchStart [p; p]; TouchMove [p; p]] in
  zoom st = NaN /\ ~ zoom_in_range (zoom st).
Proof.
  cbv zeta.
  assert (H : zoom (run None initialState
                      [TouchStart [{| clientX := 100; clientY := 200 |};
                                   {| clientX := 100; clientY := 200 |}];
                       TouchMove [{| clientX := 100; clientY := 200 |};
                                  {| clientX := 100; clientY := 200 |}]])
              = NaN).
  { unfold run. cbn [fold_left handle handleTouchStart handleTouchMove
                       pinchRef setPinchRef initialDistance initialZoom
                       zoom setZoom initialState].
    rewrite getTouchDistance_same. unfold div.
    rewrite Reqb_true by reflexivity.
    rewrite !Rltb_false by lra. reflexivity. }
  rewrite H. split; [reflexivity | apply nan_not_in_range].
Qed.

(** C5, on the code: the pinch ratio is not guarded.  After a touch-start
    with coincident contact points the baseline distance is 0; a
    touch-move then divides by it: the ratio is [NaN] when the points still
    coincide and [Infinity] when they are apart, and the zoom becomes [NaN]
    or jumps to [ZOOM_MAX], where a ratio of 1 would leave it at the
    baseline zoom 1. *)
Theorem pinch_ratio_unguarded :
  let p := {| clientX := 100; clientY := 200 |} in
  let q := {| clientX := 103; clientY := 204 |} in
  let st := handleTouchStart [p; p] initialState in
  pinchRef st = Some {| initialDistance := Fin 0; initialZoom := Fin 1 |} /\
  div (getTouchDistance p p) (Fin 0) = NaN /\
  div (getTouchDistance p q) (Fin 0) = PInf /\
  zoom (handleTouchMove [p; p] st) = NaN /\
  zoom (handleTouchMove [p; q] st) = ZOOM_MAX.
Proof.
  cbv zeta.
  set (p := {| clientX := 100; clientY := 200 |}).
  set (q := {| clientX := 103; clientY := 204 |}).
  assert (Hpp : div (getTouchDistance p p) (Fin 0) = NaN).
  { rewrite getTouchDistance_same. unfold div.
    rewrite Reqb_true by reflexivity. now rewrite !Rltb_false by lra. }
  assert (Hpq : div (getTouchDistance p q) (Fin 0) = PInf).
  { destruct (getTouchDistance_fin p q) as (d & -> & Hd & Hz).
    unfold div. rewrite Reqb_true by reflexivity.
    rewrite Rltb_true; [reflexivity |].
    destruct (Req_dec_T d 0) as [E | E]; [| lra].
    apply Hz in E. destruct E as (E & _). cbn in E. lra. }
  assert (Hst : pinchRef (handleTouchStart [p; p] initialState)
                = Some {| initialDistance := Fin 0; initialZoom := Fin 1 |}).
  { cbn [handleTouchStart pinchRef setPinchRef zoom initialState].
    now rewrite getTouchDistance_same. }
  repeat split; try assumption.
  - unfold handleTouchMove. rewrite Hst.
    cbn [zoom setZoom initialDistance initialZoom]. now rewrite Hpp.
  - unfold handleTouchMove. rewrite Hst.
    cbn [zoom setZoom initialDistance initialZoom]. rewrite Hpq.
    cbn [mul]. unfold scale_inf. rewrite Rltb_true by lra. reflexivity.
Qed.

(** The flattener divides by a sibling count that may be zero, and no
    segment carries the result: whatever the taxonomy, every angle of the
    output is finite. *)
Lemma flatten_angles_finite (data : FlavorWheelData) (s : R) (cw : bool) :
  Forall finite_angles
    (flattenToSegments data {| startAngleDeg := Fin s; clockwise := cw |}).
Proof.
  destruct data as [| e data]; [constructor |].
  rewrite flattenToSegments_finite_blocks by discriminate.
  apply catBlocks_finite.
Qed.

End Zoom.

(** ** Disjoint gesture tracks *)

Section Frame.

Import FlavorWheel.

(** C8.  A pointer-down with a button other than the primary one leaves
    the view state as it is, and so does a pointer-move when there is no
    drag anchor; the handlers of the rotate-drag leave the zoom as it is,
    and the handlers of the wheel and of the pinch leave the rotation as it
    is. *)
Theorem gesture_tracks_disjoint (st : ViewState) (e : PointerEvent)
  (w : WheelEvent) (touches : list Touch) :
  (button e <> 0%Z -> handlePointerDown e st = st) /\
  (dragRef st = None -> handlePointerMove e st = st) /\
  zoom (handlePointerDown e st) = zoom st /\
  zoom (handlePointerMove e st) = zoom st /\
  zoom (handlePointerUp st) = zoom st /\
  rotation (handleWheel w st) = rotation st /\
  rotation (handleTouchStart touches st) = rotation st /\
  rotation (handleTouchMove touches st) = rotation st /\
  rotation (handleTouchEndWithE touches st) = rotation st.
Proof.
  repeat split.
  - intros Hb. unfold handlePointerDown.
    destruct (Z.eqb_spec (button e) 0); [contradiction | reflexivity].
  - intros Hd. unfold handlePointerMove. now rewrite Hd.
  - unfold handlePointerDown. now destruct (negb _).
  - unfold handlePointerMove. now destruct (dragRef st).
  - unfold handleTouchStart.
    now destruct touches as [| a [| b [| c touches]]].
  - unfold handleTouchMove.
    destruct touches as [| a [| b [| c touches]]]; try reflexivity.
    now destruct (pinchRef st).
  - unfold handleTouchEndWithE. now destruct (Nat.ltb _ _).
Qed.

(** A pointer-down with the secondary button during a drag, and a
    pointer-move on the wheel at mount. *)
Lemma gesture_tracks_disjoint_witness :
  let e := {| button := 2; polarDeg := Fin 45 |} in
  let dragging :=
    setDragRef (Some {| startAngle := Fin 10; startRotation := Fin 0 |})
               initialState in
  handlePointerDown e dragging = dragging /\
  handlePointerMove e initialState = initialState.
Proof.
  cbv zeta. split.
  - apply (gesture_tracks_disjoint
             (setDragRef
                (Some {| startAngle := Fin 10; startRotation := Fin 0 |})
                initialState)
             {| button := 2; polarDeg := Fin 45 |}
             {| deltaY := 0 |} []).
    cbn. discriminate.
  - apply (gesture_tracks_disjoint initialState
             {| button := 2; polarDeg := Fin 45 |} {| deltaY := 0 |} []).
    reflexivity.
Defined.

End Frame.

(** ** Tooltip position *)

Section TooltipPosition.

Import FlavorWheel.




End TooltipPosition.

(** ** The tooltip in doubles *)

Section Tooltip64.

Import PrimFloat F64 Props64.
Local Open Scope float_scope.
#[local] Set Warnings "-inexact-float".


(** In doubles too, a segment point at the center of the viewport gets its
    tooltip at the segment point, and the tooltip of the point (100, 0) in
    the default viewport is at (160, 80), at distance 100 exactly. *)
Example tooltip_doubles :
  F64.getTooltipPosition (Some {| innerWidth := 1024; innerHeight := 768 |})
    512 384 = {| x := 512; y := 384 |} /\
  F64.getTooltipPosition None 400 400 = {| x := 400; y := 400 |} /\
  F64.getTooltipPosition None 100 0 = {| x := 160; y := 80 |} /\
  distance2 100 0 160 80 = Some 10000%Q.
Proof. repeat split; vm_compute; reflexivity. Qed.

End Tooltip64.

(** ** Segment fills *)

Section SegmentFill.

Import Colors.

(** X31.  For each of the seven categories of the table: the fill of ring
    1 is the base color of the table, the fills of the three rings are
    colors [#rrggbb], the fill of ring 2 is channel by channel at least as
    light as the fill of ring 1, and the fill of ring 3 at least as light
    as the fill of ring 2. *)
Theorem table_category_fills (categoryId : string) :
  In categoryId (map fst CATEGORY_BASE) ->
  lookup CATEGORY_BASE categoryId = Some (getSegmentFill categoryId Ring1) /\
  is_hex7 (getSegmentFill categoryId Ring1) = true /\
  is_hex7 (getSegmentFill categoryId Ring2) = true /\
  is_hex7 (getSegmentFill categoryId Ring3) = true /\
  lighter_or_equal (getSegmentFill categoryId Ring1)
                   (getSegmentFill categoryId Ring2) = true /\
  lighter_or_equal (getSegmentFill categoryId Ring2)
                   (getSegmentFill categoryId Ring3) = true.
Proof.
  intros Hin. cbn in Hin.
  repeat (destruct Hin as [<- | Hin]; [vm_compute; auto 10 |]).
  contradiction.
Qed.

(** The fills of the category [floreale]. *)
Lemma table_category_fills_witness :
  lookup CATEGORY_BASE "floreale" = Some (getSegmentFill "floreale" Ring1) /\
  is_hex7 (getSegmentFill "floreale" Ring1) = true /\
  is_hex7 (getSegmentFill "floreale" Ring2) = true /\
  is_hex7 (getSegmentFill "floreale" Ring3) = true /\
  lighter_or_equal (getSegmentFill "floreale" Ring1)
                   (getSegmentFill "floreale" Ring2) = true /\
  lighter_or_equal (getSegmentFill "floreale" Ring2)
                   (getSegmentFill "floreale" Ring3) = true.
Proof.
  apply (table_category_fills "floreale"). cbn. auto.
Defined.

(** C10, on the code: for a category that is not in the table, the fill of
    ring 1 is the four-character [#888], not a color [#rrggbb], and the
    fills of rings 2 and 3 are not lighter than this gray (136, 136, 136):
    their red and green channels are 51, 57 and 97, 102. *)
Theorem fallback_fill_not_lighter :
  lookup CATEGORY_BASE "miele" = None /\
  getSegmentFill "miele" Ring1 = "#888"%string /\
  is_hex7 (getSegmentFill "miele" Ring1) = false /\
  css_rgb (getSegmentFill "miele" Ring1) = Some (136, 136, 136)%Z /\
  css_rgb (getSegmentFill "miele" Ring2) = Some (51, 57, 160)%Z /\
  css_rgb (getSegmentFill "miele" Ring3) = Some (97, 102, 181)%Z /\
  lighter_or_equal (getSegmentFill "miele" Ring1)
                   (getSegmentFill "miele" Ring2) = false /\
  lighter_or_equal (getSegmentFill "miele" Ring1)
                   (getSegmentFill "miele" Ring3) = false.
Proof. repeat split; vm_compute; reflexivity. Qed.

End SegmentFill.

(* ================================================================== *)
(** * Part IV: further properties of the code *)
(* ================================================================== *)

(** ** Counting and ordering the segments *)

Section Counting.

Context {A B : Type}.
Implicit Types (g : A -> nat -> list B) (xs : list A).

Lemma emit_ext g g' xs i :
  (forall e k, g e k = g' e k) -> emit g xs i = emit g' xs i.
Proof.
  intros H. revert i. induction xs as [| e xs IH]; intros i; cbn [emit].
  - reflexivity.
  - now rewrite H, IH.
Qed.

Lemma emit_map {A' : Type} (f : A' -> A) g (ys : list A') i :
  emit g (map f ys) i = emit (fun e k => g (f e) k) ys i.
Proof.
  revert i. induction ys as [| e ys IH]; intros i; cbn [emit map].
  - reflexivity.
  - now rewrite IH.
Qed.

Lemma map_emit {C : Type} (f : B -> C) g xs i :
  map f (emit g xs i) = emit (fun e k => map f (g e k)) xs i.
Proof.
  revert i. induction xs as [| e xs IH]; intros i; cbn [emit map].
  - reflexivity.
  - now rewrite map_app, IH.
Qed.

Lemma map_emit_singletons {C : Type} (f : B -> C) (mk : A -> nat -> B)
  (f' : A -> C) xs i :
  (forall e k, f (mk e k) = f' e) ->
  map f (emit (fun e k => [mk e k]) xs i) = map f' xs.
Proof.
  intros H. revert i. induction xs as [| e xs IH]; intros i; cbn [emit map app].
  - reflexivity.
  - now rewrite H, IH.
Qed.

Lemma emit_length (h : A -> nat) g xs i :
  (forall e k, List.length (g e k) = h e) ->
  List.length (emit g xs i) = list_sum (map h xs).
Proof.
  intros H. revert i.
  induction xs as [| e xs IH]; intros i; cbn [emit map list_sum].
  - reflexivity.
  - now rewrite length_app, H, IH.
Qed.

Lemma emit_filter_length (P : B -> bool) (h : A -> nat) g xs i :
  (forall e k, List.length (filter P (g e k)) = h e) ->
  List.length (filter P (emit g xs i)) = list_sum (map h xs).
Proof.
  intros H. revert i.
  induction xs as [| e xs IH]; intros i; cbn [emit map list_sum].
  - reflexivity.
  - now rewrite filter_app, length_app, H, IH.
Qed.

Lemma In_emit g xs i (x : B) :
  In x (emit g xs i) -> exists e k, In e xs /\ In x (g e k).
Proof.
  revert i. induction xs as [| e xs IH]; intros i H; cbn [emit] in H.
  - contradiction.
  - apply in_app_or in H. destruct H as [H | H].
    + exists e, i. split; [now left | exact H].
    + destruct (IH _ H) as (e' & k & He & Hx).
      exists e', k. split; [now right | exact Hx].
Qed.

Lemma Forall_emit_index (P : B -> Prop) g xs i :
  (forall e k, (i <= k < i + List.length xs)%nat -> Forall P (g e k)) ->
  Forall P (emit g xs i).
Proof.
  revert i. induction xs as [| e xs IH]; intros i H; cbn [emit].
  - constructor.
  - apply Forall_app. split.
    + apply H. cbn [List.length]. lia.
    + apply IH. intros e' k Hk. apply H. cbn [List.length]. lia.
Qed.

End Counting.

Section RingCounts.

Lemma list_sum_ones {A : Type} (l : list A) :
  list_sum (map (fun _ => 1%nat) l) = List.length l.
Proof. induction l as [| a l IH]; simpl; [reflexivity | now rewrite IH]. Qed.

Lemma list_sum_plus {A : Type} (f g : A -> nat) (l : list A) :
  list_sum (map (fun e => (f e + g e)%nat) l)
  = (list_sum (map f l) + list_sum (map g l))%nat.
Proof. induction l as [| a l IH]; simpl; [reflexivity | rewrite IH; lia]. Qed.

(** The segments of each ring in the block of a subcategory. *)
Lemma subBlock_counts catId a0 subStep sign e j :
  List.length (subBlock catId a0 subStep sign e j)
  = S (count_children (snd e)) /\
  List.length (filter (fun s => ring_eqb (ring s) Ring1)
                 (subBlock catId a0 subStep sign e j)) = 0%nat /\
  List.length (filter (fun s => ring_eqb (ring s) Ring2)
                 (subBlock catId a0 subStep sign e j)) = 1%nat /\
  List.length (filter (fun s => ring_eqb (ring s) Ring3)
                 (subBlock catId a0 subStep sign e j))
  = count_children (snd e).
Proof.
  unfold subBlock, count_children.
  destruct (node_children (snd e)) as [leaves |]; cbn [filter List.length].
  - pose proof (leaves_ring3 catId (fst e)
                  (startAngle (subSegment catId a0 subStep sign e j))
                  (div subStep (of_nat (List.length leaves))) sign leaves 0)
      as H3.
    destruct (filter_ring3 _ H3) as (F3 & F2 & F1).
    unfold ring_eqb. cbn [ring subSegment ring_number Nat.eqb List.length].
    rewrite F1, F2, F3, emit_singletons_length. auto.
  - auto.
Qed.

(** The segments of each ring in the block of a category. *)
Lemma catBlock_counts options step sign e i :
  List.length (catBlock options step sign e i)
  = S (match node_children (snd e) with
       | None => 0
       | Some subs => List.length subs + count_subs subs
       end)%nat /\
  List.length (filter (fun s => ring_eqb (ring s) Ring2)
                 (catBlock options step sign e i))
  = count_children (snd e) /\
  List.length (filter (fun s => ring_eqb (ring s) Ring3)
                 (catBlock options step sign e i))
  = match node_children (snd e) with
    | None => 0%nat
    | Some subs => count_subs subs
    end.
Proof.
  unfold catBlock, count_children.
  destruct (node_children (snd e)) as [subs |]; [| auto].
  set (a0 := startAngle (catSegment options step sign e i)).
  set (ss := div step (of_nat (List.length subs))).
  cbn [filter].
  change (ring_eqb (ring (catSegment options step sign e i)) Ring2)
    with false.
  change (ring_eqb (ring (catSegment options step sign e i)) Ring3)
    with false.
  cbn [List.length]. repeat split.
  - f_equal.
    rewrite (emit_length (fun e' => S (count_children (snd e')))).
    + change (fun e' : string * FlavorNode => S (count_children (snd e')))
        with (fun e' : string * FlavorNode =>
                (1 + count_children (snd e'))%nat).
      rewrite (list_sum_plus (fun _ => 1%nat)), list_sum_ones.
      reflexivity.
    + intros e' k. apply subBlock_counts.
  - rewrite (emit_filter_length _ (fun _ => 1%nat)).
    + apply list_sum_ones.
    + intros e' k. apply subBlock_counts.
  - rewrite (emit_filter_length _ (fun e' => count_children (snd e'))).
    + reflexivity.
    + intros e' k. apply subBlock_counts.
Qed.

Lemma count_total (data : FlavorWheelData) :
  list_sum
    (map (fun e => S (match node_children (snd e) with
                      | None => 0
                      | Some subs => List.length subs + count_subs subs
                      end)%nat) data)
  = (List.length data + count_subs data + count_leaves data)%nat.
Proof.
  unfold count_subs at 2, count_leaves, count_children.
  induction data as [| e data IH]; simpl.
  - reflexivity.
  - rewrite IH. destruct (node_children (snd e)); lia.
Qed.

(** X1.  Whatever the options, the flattener returns one segment per node
    of the first three levels of the taxonomy: as many segments of ring 1
    as categories, of ring 2 as subcategories and of ring 3 as nodes of
    the third level, and nothing else. *)
Theorem flatten_ring_counts (data : FlavorWheelData) (options : Options) :
  let out := flattenToSegments data options in
  List.length (getSegmentsByRing out Ring1) = List.length data /\
  List.length (getSegmentsByRing out Ring2) = count_subs data /\
  List.length (getSegmentsByRing out Ring3) = count_leaves data /\
  List.length out
  = (List.length data + count_subs data + count_leaves data)%nat.
Proof.
  cbv zeta. rewrite flattenToSegments_blocks. unfold getSegmentsByRing.
  set (step := div (Fin 360) (of_nat (List.length data))).
  set (sign := if clockwise options then Fin 1 else Fin (-1)).
  repeat split.
  - rewrite filter_ring1_catBlocks. apply emit_singletons_length.
  - unfold count_subs.
    apply (emit_filter_length _ (fun e => count_children (snd e))).
    intros e k. apply catBlock_counts.
  - unfold count_leaves. apply emit_filter_length.
    intros e k. apply catBlock_counts.
  - rewrite (emit_length
               (fun e => S (match node_children (snd e) with
                            | None => 0
                            | Some subs => List.length subs + count_subs subs
                            end)%nat)).
    + apply count_total.
    + intros e k. apply catBlock_counts.
Qed.

(** X2.  The segments of ring 1 come in the order of the keys of the
    taxonomy: their ids are the keys, their names and descriptions those of
    the categories, each is its own category and has no parent. *)
Theorem flatten_ring1_keys (data : FlavorWheelData) (options : Options) :
  let ring1 := getSegmentsByRing (flattenToSegments data options) Ring1 in
  map id ring1 = map fst data /\
  map name ring1 = map (fun e => node_name (snd e)) data /\
  map description ring1 = map (fun e => node_description (snd e)) data /\
  map categoryId ring1 = map fst data /\
  map parentId ring1 = map (fun _ => None) data.
Proof.
  cbv zeta. rewrite flattenToSegments_blocks. unfold getSegmentsByRing.
  rewrite filter_ring1_catBlocks.
  repeat split; apply map_emit_singletons; reflexivity.
Qed.

(** X3.  The three rings that the render draws one after the other hold
    every segment exactly once. *)
Theorem rings_partition (segments : list WheelSegment) :
  Permutation
    (getSegmentsByRing segments Ring1 ++ getSegmentsByRing segments Ring2
     ++ getSegmentsByRing segments Ring3)
    segments.
Proof.
  unfold getSegmentsByRing.
  induction segments as [| s l IH]; cbn [filter]; [constructor |].
  destruct (ring s); unfold ring_eqb; cbn [ring_number Nat.eqb app].
  - now constructor.
  - apply Permutation_sym, Permutation_cons_app, Permutation_sym. exact IH.
  - apply Permutation_sym.
    rewrite app_assoc. apply Permutation_cons_app.
    rewrite <- app_assoc. apply Permutation_sym. exact IH.
Qed.

End RingCounts.

(** ** What the output depends on *)

Section Dependence.

Lemma subBlock_prune catId a0 subStep sign e j :
  subBlock catId a0 subStep sign (fst e, prune_sub (snd e)) j
  = subBlock catId a0 subStep sign e j.
Proof.
  unfold subBlock. cbn [fst snd prune_sub node_children].
  destruct (node_children (snd e)) as [leaves |]; cbn [option_map];
    [| reflexivity].
  f_equal. unfold prune_entries. rewrite emit_map, length_map.
  apply emit_ext. intros e' k. reflexivity.
Qed.

Lemma catBlock_prune options step sign e i :
  catBlock options step sign (fst e, prune_cat (snd e)) i
  = catBlock options step sign e i.
Proof.
  unfold catBlock. cbn [fst snd prune_cat node_children].
  destruct (node_children (snd e)) as [subs |]; cbn [option_map];
    [| reflexivity].
  f_equal. unfold prune_entries. rewrite emit_map, length_map.
  apply emit_ext. intros e' k. apply subBlock_prune.
Qed.

(** X4.  The flattener reads three levels of the taxonomy and no more:
    the children of the nodes of the third level have no effect on the
    output. *)
Theorem flatten_ignores_fourth_level (data : FlavorWheelData)
  (options : Options) :
  flattenToSegments (prune data) options = flattenToSegments data options.
Proof.
  rewrite !flattenToSegments_blocks. unfold prune, prune_entries.
  rewrite emit_map, length_map.
  apply emit_ext. intros e k. apply catBlock_prune.
Qed.

End Dependence.

(** ** Bounds of the angles in exact arithmetic *)

Section Bounds.

Lemma angles_within_weaken (lo hi w lo' hi' w' : R) (s : WheelSegment) :
  lo' <= lo -> hi <= hi' -> w <= w' ->
  angles_within lo hi w s -> angles_within lo' hi' w' s.
Proof.
  intros Hlo Hhi Hw (a & b & Hs & He & H1 & H2 & H3 & H4).
  exists a, b. repeat split; try assumption; lra.
Qed.

Lemma uniform_within (a w : R) (l : list WheelSegment) : forall j,
  0 <= w -> uniform a w 1 j l ->
  Forall (angles_within (a + INR j * w) (a + INR (j + List.length l) * w) w) l.
Proof.
  induction l as [| s l IH]; intros j Hw H; constructor.
  - destruct H as (Hs & He & _).
    exists (a + INR j * w * 1), (a + (INR j + 1) * w * 1).
    split; [exact Hs |]. split; [exact He |].
    cbn [List.length]. rewrite plus_INR, S_INR.
    pose proof (pos_INR (List.length l)). nra.
  - destruct H as (_ & _ & H).
    eapply Forall_impl; [| apply (IH (S j) Hw H)].
    intros c. apply angles_within_weaken.
    + rewrite S_INR. nra.
    + apply Req_le. f_equal. f_equal. f_equal. cbn [List.length]. lia.
    + lra.
Qed.

Lemma subBlock_within catId (a w : R) e j :
  0 <= w ->
  Forall (angles_within (a + INR j * w) (a + (INR j + 1) * w) w)
    (subBlock catId (Fin a) (Fin w) (Fin 1) e j).
Proof.
  intros Hw.
  assert (Hhead : angles_within (a + INR j * w) (a + (INR j + 1) * w) w
                    (subSegment catId (Fin a) (Fin w) (Fin 1) e j)).
  { exists (a + INR j * w * 1), (a + (INR j + 1) * w * 1).
    split; [reflexivity |]. split; [reflexivity |]. nra. }
  destruct (children_cases (node_children (snd e))) as [H | (lv & H & Hne)].
  - rewrite subBlock_no_leaves by exact H. now constructor.
  - destruct (subBlock_leaves 1 catId a w e j lv H Hne)
      as (l & -> & Hlen & _ & Hu).
    constructor; [exact Hhead |].
    assert (Hn : (0 < List.length lv)%nat)
      by (destruct lv; [congruence | cbn; lia]).
    destruct (step_within w (List.length lv) 0 Hw Hn) as (Hq & _ & Hq1).
    cbn [INR] in Hq1.
    eapply Forall_impl; [| apply (uniform_within _ _ _ 0%nat Hq Hu)].
    intros c. apply angles_within_weaken.
    + cbn [INR]. lra.
    + rewrite Hlen. cbn [Nat.add].
      assert (INR (List.length lv) <> 0) by (apply not_0_INR; lia).
      apply Req_le. field. assumption.
    + lra.
Qed.

Lemma catBlock_within (s st : R) e i :
  0 <= st ->
  Forall (angles_within (s + INR i * st) (s + (INR i + 1) * st) st)
    (catBlock {| startAngleDeg := Fin s; clockwise := true |}
       (Fin st) (Fin 1) e i).
Proof.
  intros Hst. unfold catBlock. constructor.
  - exists (s + INR i * st * 1), (s + (INR i + 1) * st * 1).
    split; [reflexivity |]. split; [reflexivity |]. nra.
  - destruct (children_cases (node_children (snd e))) as [H | (subs & H & Hne)].
    + destruct H as [-> | ->]; constructor.
    + rewrite H. rewrite div_of_nat by (destruct subs; [congruence | discriminate]).
      cbn [startAngle catSegment startAngleDeg add mul of_nat].
      apply Forall_emit_index. intros e' k Hk.
      destruct (step_within st (List.length subs) k Hst) as (Hq & Hlo & Hhi);
        [lia |].
      assert (Hn : (0 < List.length subs)%nat) by lia.
      destruct (step_within st (List.length subs) 0 Hst Hn) as (_ & _ & Hq1).
      cbn [INR] in Hq1.
      eapply Forall_impl; [| apply subBlock_within; exact Hq].
      intros c. apply angles_within_weaken; lra.
Qed.

(** The blocks of the categories numbered from [i0] on lie in their
    shares of the circle. *)
Lemma catBlocks_within (s st : R) (data : FlavorWheelData) (i0 : nat) :
  0 <= st ->
  Forall (angles_within (s + INR i0 * st)
            (s + INR (i0 + List.length data) * st) st)
    (emit (catBlock {| startAngleDeg := Fin s; clockwise := true |}
             (Fin st) (Fin 1)) data i0).
Proof.
  intros Hst. apply Forall_emit_index. intros e k Hk.
  eapply Forall_impl; [| apply catBlock_within; exact Hst].
  intros c. apply angles_within_weaken.
  - assert (INR i0 <= INR k) by (apply le_INR; lia). nra.
  - assert (INR k + 1 <= INR (i0 + List.length data)).
    { rewrite <- S_INR. apply le_INR. lia. }
    nra.
  - lra.
Qed.

End Bounds.

(** ** Distinct ids *)

Section DistinctIds.

Lemma append_inj_r (p a b : string) : (p ++ a)%string = (p ++ b)%string -> a = b.
Proof.
  induction p as [| c p IH]; cbn [String.append]; intros H.
  - exact H.
  - injection H as H. now apply IH.
Qed.

Lemma append_length (a b : string) :
  String.length (a ++ b) = (String.length a + String.length b)%nat.
Proof. induction a as [| c a IH]; cbn; [reflexivity | now rewrite IH]. Qed.

Lemma append_dash_neq (a b : string) : a <> (a ++ "-" ++ b)%string.
Proof.
  intros H. apply (f_equal String.length) in H.
  rewrite append_length in H. cbn in H. lia.
Qed.

Lemma before_dash_free (a : string) : dash_free a = true -> before_dash a = a.
Proof.
  induction a as [| c a IH]; intros H; [reflexivity |].
  cbn [dash_free] in H. apply andb_true_iff in H. destruct H as (Hc & Ha).
  cbn [before_dash].
  destruct (Ascii.eqb c "-"); [discriminate |]. now rewrite IH.
Qed.

Lemma before_dash_append (a b : string) :
  dash_free a = true -> before_dash (a ++ "-" ++ b) = a.
Proof.
  change (a ++ "-" ++ b)%string with (a ++ String "-" b)%string.
  induction a as [| c a IH]; intros H; [reflexivity |].
  cbn [dash_free] in H. apply andb_true_iff in H. destruct H as (Hc & Ha).
  cbn [String.append before_dash].
  destruct (Ascii.eqb c "-"); [discriminate |]. now rewrite IH.
Qed.

Lemma NoDup_app_disjoint {A : Type} (l l' : list A) :
  NoDup l -> NoDup l' -> (forall x, In x l -> ~ In x l') -> NoDup (l ++ l').
Proof.
  induction 1 as [| a l Ha Hl IH]; intros Hl' Hd; cbn [app]; [exact Hl' |].
  constructor.
  - intros Hin. apply in_app_or in Hin. destruct Hin as [Hin | Hin].
    + contradiction.
    + apply (Hd a); [now left | exact Hin].
  - apply IH; [exact Hl' |]. intros x Hx. apply Hd. now right.
Qed.

Lemma NoDup_map_inj {A B : Type} (f : A -> B) (l : list A) :
  (forall x y, f x = f y -> x = y) -> NoDup l -> NoDup (map f l).
Proof.
  intros Hf. induction 1 as [| a l Ha Hl IH]; cbn [map]; constructor.
  - intros Hin. apply in_map_iff in Hin. destruct Hin as (y & Hy & Hin).
    apply Hf in Hy. subst y. contradiction.
  - exact IH.
Qed.

(** Blocks whose elements carry the distinct keys of their entries are
    disjoint. *)
Lemma NoDup_emit_keyed {A : Type} (g : A -> nat -> list string)
  (kx : A -> string) (xs : list A) : forall i,
  NoDup (map kx xs) ->
  (forall e k, In e xs -> NoDup (g e k)) ->
  (forall e k x, In e xs -> In x (g e k) -> before_dash x = kx e) ->
  NoDup (emit g xs i).
Proof.
  induction xs as [| e xs IH]; intros i Hk Hg Hkey; cbn [emit].
  - constructor.
  - cbn [map] in Hk. apply NoDup_cons_iff in Hk. destruct Hk as (Hnotin & Hk).
    apply NoDup_app_disjoint.
    + apply Hg. now left.
    + apply IH; [exact Hk | |].
      * intros e' k He'. apply Hg. now right.
      * intros e' k x He'. apply Hkey. now right.
    + intros x Hx Hx'. apply In_emit in Hx'.
      destruct Hx' as (e' & k & He' & Hx').
      apply Hnotin. apply in_map_iff. exists e'. split; [| exact He'].
      rewrite <- (Hkey e' k x (or_intror He') Hx').
      apply (Hkey e i x (or_introl eq_refl) Hx).
Qed.

(** The ids of the block of a subcategory, after the prefix [catId-]. *)
Lemma subBlock_ids catId a0 subStep sign e j :
  map id (subBlock catId a0 subStep sign e j)
  = map (fun r => (catId ++ "-" ++ r)%string)
      (fst e :: match node_children (snd e) with
                | None => []
                | Some leaves =>
                    map (fun l => (fst e ++ "-" ++ fst l)%string) leaves
                end).
Proof.
  unfold subBlock. cbn [map id subSegment]. f_equal.
  destruct (node_children (snd e)) as [leaves |]; [| reflexivity].
  rewrite map_map.
  apply (map_emit_singletons id _ (fun l => (catId ++ "-" ++ fst e ++ "-" ++ fst l)%string)).
  reflexivity.
Qed.

(** The ids of the block of a subcategory are distinct, and all start
    with its key. *)
Lemma sub_rests_distinct (e : string * FlavorNode) :
  sub_keys_ok e ->
  let rests :=
    fst e :: match node_children (snd e) with
             | None => []
             | Some leaves =>
                 map (fun l => (fst e ++ "-" ++ fst l)%string) leaves
             end in
  NoDup rests /\ Forall (fun r => before_dash r = fst e) rests.
Proof.
  intros (Hfree & Hleaves). cbv zeta. split.
  - constructor.
    + destruct (node_children (snd e)) as [leaves |]; [| intros []].
      intros Hin. apply in_map_iff in Hin. destruct Hin as (l & Hl & _).
      symmetry in Hl. exact (append_dash_neq _ _ Hl).
    + destruct (node_children (snd e)) as [leaves |]; [| constructor].
      rewrite <- (map_map fst (fun k => (fst e ++ "-" ++ k)%string)).
      apply NoDup_map_inj; [| exact Hleaves].
      intros x y H. apply append_inj_r in H. now injection H.
  - constructor; [now apply before_dash_free |].
    destruct (node_children (snd e)) as [leaves |]; [| constructor].
    apply Forall_forall. intros r Hin. apply in_map_iff in Hin.
    destruct Hin as (l & <- & _). now apply before_dash_append.
Qed.

(** The ids of the blocks of the subcategories of a category, after the
    prefix [catId-], are distinct. *)
Lemma subBlocks_ids_distinct catId a0 subStep sign subs i :
  distinct_keys subs -> Forall sub_keys_ok subs ->
  exists rests,
    map id (emit (subBlock catId a0 subStep sign) subs i)
    = map (fun r => (catId ++ "-" ++ r)%string) rests /\ NoDup rests.
Proof.
  intros Hdistinct Hok.
  exists (emit (fun e' (k : nat) =>
                  fst e' :: match node_children (snd e') with
                            | None => []
                            | Some leaves =>
                                map (fun l => (fst e' ++ "-" ++ fst l)%string)
                                    leaves
                            end) subs i).
  rewrite Forall_forall in Hok. split.
  - rewrite map_emit, map_emit. apply emit_ext. intros e' k.
    apply subBlock_ids.
  - apply (NoDup_emit_keyed _ fst); [exact Hdistinct | |].
    + intros e' k He'. apply (sub_rests_distinct e' (Hok e' He')).
    + intros e' k x He' Hx.
      destruct (sub_rests_distinct e' (Hok e' He')) as (_ & Hkey).
      rewrite Forall_forall in Hkey. now apply Hkey.
Qed.

Lemma catBlock_ids_distinct options step sign e i :
  cat_keys_ok e ->
  NoDup (map id (catBlock options step sign e i)) /\
  Forall (fun x => before_dash x = fst e)
    (map id (catBlock options step sign e i)).
Proof.
  intros (Hfree & Hsubs). unfold catBlock. cbn [map].
  change (id (catSegment options step sign e i)) with (fst e).
  destruct (node_children (snd e)) as [subs |].
  2:{ split; [constructor; [intros [] | constructor] |].
      constructor; [now apply before_dash_free | constructor]. }
  destruct Hsubs as (Hdistinct & Hok).
  destruct (subBlocks_ids_distinct (fst e)
              (startAngle (catSegment options step sign e i))
              (div step (of_nat (List.length subs))) sign subs 0
              Hdistinct Hok) as (rests & Hids & Hnd).
  rewrite Hids. split.
  - constructor.
    + intros Hin. apply in_map_iff in Hin. destruct Hin as (r & Hr & _).
      symmetry in Hr. exact (append_dash_neq _ _ Hr).
    + apply NoDup_map_inj; [| exact Hnd].
      intros x y H. apply append_inj_r in H. now injection H.
  - constructor; [now apply before_dash_free |].
    apply Forall_forall. intros x Hin. apply in_map_iff in Hin.
    destruct Hin as (r & <- & _). now apply before_dash_append.
Qed.

(** X8.  When the keys of the categories and of the subcategories hold no
    [-] and the keys of every record are distinct, no two segments of the
    output have the same id. *)
Theorem flatten_ids_distinct (data : FlavorWheelData) (options : Options) :
  keys_ok data -> NoDup (map id (flattenToSegments data options)).
Proof.
  intros (Hdistinct & Hok). rewrite flattenToSegments_blocks, map_emit.
  rewrite Forall_forall in Hok.
  apply (NoDup_emit_keyed _ fst); [exact Hdistinct | |].
  - intros e k He. apply catBlock_ids_distinct. now apply Hok.
  - intros e k x He Hx.
    destruct (catBlock_ids_distinct options
                (div (Fin 360) (of_nat (List.length data)))
                (if clockwise options then Fin 1 else Fin (-1)) e k
                (Hok e He)) as (_ & Hkey).
    rewrite Forall_forall in Hkey. now apply Hkey.
Qed.

Lemma scenario_keys_ok : keys_ok scenario.
Proof.
  split.
  - repeat constructor; cbn; intuition discriminate.
  - repeat constructor; cbn; intuition discriminate.
Qed.

(** The ids of the scenario are distinct. *)
Lemma flatten_ids_distinct_witness :
  NoDup (map id (buildWheelSegments scenario)).
Proof. exact (flatten_ids_distinct scenario _ scenario_keys_ok). Defined.

(** With a [-] in a key the ids can collide: the category [a-b] and the
    subcategory [b] of the category [a] both get the id [a-b]. *)
Example colliding_ids :
  map id (buildWheelSegments colliding) = ["a"; "a-b"; "a-b"]%string.
Proof.
  unfold buildWheelSegments. rewrite flattenToSegments_blocks. reflexivity.
Qed.

End DistinctIds.

(** ** Points and arcs *)

Section ArcGeometry.

Import Arc.

(** The point of finite polar coordinates. *)
Lemma polarToCart_fin (cx cy r deg : R) :
  polarToCart (Fin cx) (Fin cy) (Fin r) (Fin deg)
  = (Fin (cx + r * cos ((deg - 90) * PI / 180)),
     Fin (cy + r * sin ((deg - 90) * PI / 180))).
Proof.
  unfold polarToCart, degToRad. cbn [sub mul]. rewrite div_fin by lra.
  reflexivity.
Qed.

(** The path of an arc between finite angles. *)
Lemma describeArc_fin (cx cy ri ro a b : R) :
  describeArc (Fin cx) (Fin cy) (Fin ri) (Fin ro) (Fin a) (Fin b)
  = [ MoveTo (Fin (cx + ro * cos ((a - 90) * PI / 180)))
             (Fin (cy + ro * sin ((a - 90) * PI / 180)));
      ArcTo (Fin ro) (Fin ro) (Fin 0) (Rltb 180 (b - a)) true
            (Fin (cx + ro * cos ((b - 90) * PI / 180)))
            (Fin (cy + ro * sin ((b - 90) * PI / 180)));
      LineTo (Fin (cx + ri * cos ((b - 90) * PI / 180)))
             (Fin (cy + ri * sin ((b - 90) * PI / 180)));
      ArcTo (Fin ri) (Fin ri) (Fin 0) (Rltb 180 (b - a)) false
            (Fin (cx + ri * cos ((a - 90) * PI / 180)))
            (Fin (cy + ri * sin ((a - 90) * PI / 180)));
      ClosePath ].
Proof. unfold describeArc. rewrite !polarToCart_fin. reflexivity. Qed.

End ArcGeometry.

(** ** The render: paths and labels of the segments *)

Section Render.

Import Arc FlavorWheel WheelData.

(** In exact arithmetic the segments of [buildWheelSegments] lie between 0
    and 360, none wider than a category. *)
Lemma buildWheelSegments_within (data : FlavorWheelData) :
  Forall (angles_within 0 360 (360 / INR (List.length data)))
    (buildWheelSegments data).
Proof.
  unfold buildWheelSegments.
  destruct data as [| e0 data0]; [constructor |].
  set (data := e0 :: data0).
  rewrite flattenToSegments_finite_blocks by discriminate.
  assert (Hn : 0 < INR (List.length data)) by (apply lt_0_INR; cbn; lia).
  set (st := 360 / INR (List.length data)).
  assert (Hst : 0 <= st).
  { unfold st. apply Rmult_le_pos; [lra |]. left. now apply Rinv_0_lt_compat. }
  eapply Forall_impl; [| apply (catBlocks_within 0 st data 0 Hst)].
  intros c. apply angles_within_weaken.
  - cbn [INR]. lra.
  - cbn [Nat.add]. unfold st. apply Req_le. field. lra.
  - lra.
Qed.

Lemma center_fin : CX = Fin 400 /\ CY = Fin 400.
Proof.
  unfold CX, CY, VIEW_SIZE. rewrite div_fin by lra.
  split; apply Fin_eq; lra.
Qed.

Lemma radii_fin (r : Ring) :
  exists ri ro, inner (getRadius r) = Fin ri /\ outer (getRadius r) = Fin ro /\
                0 < ri < ro.
Proof.
  destruct r; cbn; eexists; eexists;
    (split; [reflexivity | split; [reflexivity | lra]]).
Qed.

(** The path of a segment with finite angles. *)
Lemma segmentPath_fin (s : WheelSegment) (a b : R) :
  startAngle s = Fin a -> endAngle s = Fin b ->
  exists ri ro,
    inner (getRadius (ring s)) = Fin ri /\
    outer (getRadius (ring s)) = Fin ro /\
    segmentPath s
    = describeArc (Fin 400) (Fin 400) (Fin ri) (Fin ro) (Fin a) (Fin b).
Proof.
  intros Hs He. destruct (radii_fin (ring s)) as (ri & ro & Hi & Ho & _).
  exists ri, ro. split; [exact Hi |]. split; [exact Ho |].
  unfold segmentPath. destruct center_fin as (-> & ->).
  now rewrite Hi, Ho, Hs, He.
Qed.

(** X13.  With two categories or more, the path of every segment of the
    wheel carries the radii of its ring and the large-arc flag 0 on both
    arcs: no segment is wider than a half turn. *)
Theorem segment_paths_small_arcs (data : FlavorWheelData) :
  (2 <= List.length data)%nat ->
  Forall (fun s =>
            exists x1 y1 x2 y2 x3 y3 x4 y4,
              segmentPath s
              = [ MoveTo x1 y1;
                  ArcTo (outer (getRadius (ring s))) (outer (getRadius (ring s)))
                        (Fin 0) false true x2 y2;
                  LineTo x3 y3;
                  ArcTo (inner (getRadius (ring s))) (inner (getRadius (ring s)))
                        (Fin 0) false false x4 y4;
                  ClosePath ])
         (buildWheelSegments data).
Proof.
  intros Hn.
  eapply Forall_impl; [| apply buildWheelSegments_within].
  intros s (a & b & Hs & He & _ & _ & _ & Hw).
  destruct (segmentPath_fin s a b Hs He) as (ri & ro & Hi & Ho & ->).
  rewrite describeArc_fin, Hi, Ho.
  assert (H2 : 2 <= INR (List.length data)).
  { change 2 with (INR 2). now apply le_INR. }
  assert (Hst : 360 / INR (List.length data) <= 180).
  { apply Rmult_le_reg_r with (INR (List.length data)); [lra |].
    replace (360 / INR (List.length data) * INR (List.length data))
      with 360 by (field; lra).
    lra. }
  rewrite Rltb_false by lra.
  do 8 eexists. reflexivity.
Qed.

(** The paths of the three segments of the scenario have small arcs. *)
Lemma segment_paths_small_arcs_witness :
  Forall (fun s =>
            exists x1 y1 x2 y2 x3 y3 x4 y4,
              segmentPath s
              = [ MoveTo x1 y1;
                  ArcTo (outer (getRadius (ring s))) (outer (getRadius (ring s)))
                        (Fin 0) false true x2 y2;
                  LineTo x3 y3;
                  ArcTo (inner (getRadius (ring s))) (inner (getRadius (ring s)))
                        (Fin 0) false false x4 y4;
                  ClosePath ])
         (buildWheelSegments scenario).
Proof. apply (segment_paths_small_arcs scenario). cbn. lia. Defined.

(** X14.  With a single category, its segment of ring 1 spans the full
    turn from 0 to 360, and its path carries the radii of ring 1 and the
    large-arc flag 1 on both arcs. *)
Theorem single_category_large_arc (e : string * FlavorNode) :
  exists s x1 y1 x2 y2 x3 y3 x4 y4,
    getSegmentsByRing (buildWheelSegments [e]) Ring1 = [s] /\
    startAngle s = Fin 0 /\ endAngle s = Fin 360 /\
    segmentPath s
    = [ MoveTo x1 y1;
        ArcTo R1_OUTER R1_OUTER (Fin 0) true true x2 y2;
        LineTo x3 y3;
        ArcTo R1_INNER R1_INNER (Fin 0) true false x4 y4;
        ClosePath ].
Proof.
  unfold buildWheelSegments, getSegmentsByRing.
  rewrite flattenToSegments_finite_blocks by discriminate.
  rewrite filter_ring1_catBlocks. cbn [emit app List.length clockwise].
  set (s := catSegment _ _ _ e 0).
  assert (Hs : startAngle s = Fin 0).
  { cbn. apply Fin_eq. lra. }
  assert (He : endAngle s = Fin 360).
  { cbn. apply Fin_eq. lra. }
  destruct (segmentPath_fin s 0 360 Hs He) as (ri & ro & Hi & Ho & Hp).
  rewrite describeArc_fin, Rltb_true in Hp by lra.
  cbn in Hi, Ho. injection Hi as <-. injection Ho as <-.
  exists s. do 8 eexists.
  split; [reflexivity |]. split; [exact Hs |]. split; [exact He |]. exact Hp.
Qed.

(** The name before and after its first occurrence of a character. *)
Lemma indexOf_split (c : ascii) (s : string) (i : nat) :
  indexOf c s = Some i ->
  s = (slice_to i s ++ String c (slice_from (i + 1) s))%string /\
  includes c (slice_to i s) = false.
Proof.
  revert i. induction s as [| a s IH]; intros i H; cbn [indexOf] in H.
  - discriminate.
  - destruct (Ascii.eqb_spec a c) as [-> | Hac].
    + injection H as <-. cbn. auto.
    + destruct (indexOf c s) as [k |]; [| discriminate].
      injection H as <-. destruct (IH k eq_refl) as (Hs & Hinc).
      cbn [slice_to slice_from Nat.add String.append includes].
      split; [now rewrite <- Hs |].
      rewrite Hinc. destruct (Ascii.eqb_spec a c); [contradiction | reflexivity].
Qed.

Lemma includes_indexOf (c : ascii) (s : string) :
  includes c s = true -> exists i, indexOf c s = Some i.
Proof.
  induction s as [| a s IH]; cbn [includes indexOf]; [discriminate |].
  destruct (Ascii.eqb a c); cbn [orb]; [eauto |].
  intros H. destruct (IH H) as (i & ->). eauto.
Qed.

(** X16.  The label of a segment is cut in two lines only on ring 3 and at
    the first space of the name: the first line holds no space and the two
    lines joined by a space give the name back; every other label is the
    name on one line. *)
Theorem labelLines_round_trip (s : WheelSegment) :
  (isOuterTwoLine s = true ->
   name s = (fst (labelLines s) ++ " " ++ snd (labelLines s))%string /\
   includes " " (fst (labelLines s)) = false /\ ring s = Ring3) /\
  (isOuterTwoLine s = false ->
   labelLines s = (name s, EmptyString)).
Proof.
  unfold labelLines. split; intros H; rewrite H; [| reflexivity].
  unfold isOuterTwoLine in H. apply andb_true_iff in H. destruct H as (Hr & Hi).
  destruct (includes_indexOf _ _ Hi) as (i & Hidx). rewrite Hidx.
  destruct (indexOf_split _ _ _ Hidx) as (Hsplit & Hfree).
  cbn [fst snd]. split; [exact Hsplit |]. split; [exact Hfree |].
  destruct (ring s); [discriminate | discriminate | reflexivity].
Qed.

End Render.

(** ** The gestures, event after event *)

Section Gestures.

Import FlavorWheel.

(** X17.  What [tangentialLabelRotation] returns for finite arguments: the
    tangent angle [midDeg + 90], or that angle plus 180; and when the
    tangent angle plus the rotation plus 360 is negative, the label is
    never flipped. *)
Theorem tangentialLabelRotation_behaviour (midDeg wheelRotation : R) :
  exists t,
    tangentialLabelRotation (Fin midDeg) (Fin wheelRotation) = Fin t /\
    (t = midDeg + 90 \/ t = midDeg + 90 + 180) /\
    (midDeg + 90 + wheelRotation + 360 < 0 -> t = midDeg + 90).
Proof.
  destruct (Rle_dec 0 (midDeg + 90 + wheelRotation + 360)) as [Hge | Hlt].
  - pose proof (rem360_nonneg _ Hge) as Hrem.
    destruct (tangentialLabelRotation_cases _ _ _ Hrem)
      as [(_ & Hf) | (_ & Hf)]; eexists; (split; [exact Hf |]);
      (split; [auto | lra]).
  - assert (Hneg : midDeg + 90 + wheelRotation + 360 < 0) by lra.
    exists (midDeg + 90).
    split; [now apply label_never_flipped_below_minus_360 |].
    split; [now left | reflexivity].
Qed.

(** The raw angle of a pointer to the right of the center of the wheel,
    where the polar angle is 0. *)
Lemma angleFromEvent_range_witness :
  exists A, angleFromEvent {| button := 0; polarDeg := Fin 0 |} = Fin A /\
            0 <= A < 360.
Proof.
  apply (angleFromEvent_range {| button := 0; polarDeg := Fin 0 |} 0).
  - reflexivity.
  - lra.
Defined.

(** A pointer-move keeps the drag anchor. *)
Lemma handlePointerMove_dragRef (e : PointerEvent) (st : ViewState) :
  dragRef (handlePointerMove e st) = dragRef st.
Proof.
  unfold handlePointerMove.
  destruct (dragRef st) eqn:E; [cbn; exact E | exact E].
Qed.

Lemma moves_keep_anchor (window : option Window) (es : list PointerEvent) :
  forall st, dragRef (run window st (map PointerMove es)) = dragRef st.
Proof.
  unfold run. induction es as [| e es IH]; intros st; cbn [map fold_left].
  - reflexivity.
  - rewrite IH. apply handlePointerMove_dragRef.
Qed.

(** The rotation after a pointer-move during a drag. *)
Lemma handlePointerMove_anchor (e : PointerEvent) (st : ViewState)
  (anchor : DragAnchor) (R0 A0 A1 : R) :
  dragRef st = Some anchor ->
  startAngle anchor = Fin A0 -> startRotation anchor = Fin R0 ->
  angleFromEvent e = Fin A1 ->
  rotation (handlePointerMove e st) = Fin (R0 + wrap_delta (A1 - A0)).
Proof.
  intros Hd H0 HR H1. unfold handlePointerMove. rewrite Hd, H0, HR, H1.
  pose proof (wrap_delta_code (sub (Fin A1) (Fin A0)) (A1 - A0) eq_refl) as Hw.
  cbv zeta in Hw. cbv zeta. rewrite Hw. reflexivity.
Qed.

Lemma run_app (window : option Window) (st : ViewState)
  (evs evs' : list Event) :
  run window st (evs ++ evs') = run window (run window st evs) evs'.
Proof. unfold run. apply fold_left_app. Qed.

(** X19.  During a drag the rotation follows the pointer, not its path:
    after any pointer-moves, the rotation is the rotation of the anchor
    plus the delta between the raw angle of the last move and the raw angle
    of the anchor, brought into [-180, 180]; the wheel is never more than a
    half turn away from where the drag took it, and the anchor stays. *)
Theorem drag_follows_latest_move (window : option Window) (st : ViewState)
  (anchor : DragAnchor) (es : list PointerEvent) (e : PointerEvent)
  (R0 A0 A1 : R) :
  dragRef st = Some anchor ->
  startAngle anchor = Fin A0 -> 0 <= A0 < 360 ->
  startRotation anchor = Fin R0 ->
  angleFromEvent e = Fin A1 -> 0 <= A1 < 360 ->
  let st' := run window st (map PointerMove (es ++ [e])) in
  exists d,
    rotation st' = Fin (R0 + d) /\ -180 <= d <= 180 /\
    d = wrap_delta (A1 - A0) /\
    dragRef st' = Some anchor.
Proof.
  intros Hd H0 HA0 HR H1 HA1 st'. subst st'.
  rewrite map_app, run_app. cbn [map].
  set (st1 := run window st (map PointerMove es)).
  assert (Hd1 : dragRef st1 = Some anchor).
  { unfold st1. now rewrite moves_keep_anchor. }
  exists (wrap_delta (A1 - A0)).
  unfold run. cbn [fold_left handle].
  split; [now apply (handlePointerMove_anchor e st1 anchor) |].
  split; [apply wrap_delta_bounds; lra |].
  split; [reflexivity |].
  now rewrite handlePointerMove_dragRef.
Qed.

(** A drag anchored at 350 on the wheel at mount, moved to 180 and then to
    10. *)
Lemma drag_follows_latest_move_witness :
  let st :=
    handlePointerDown {| button := 0; polarDeg := Fin (-100) |} initialState in
  let st' :=
    run None st
      (map PointerMove
         ([{| button := 0; polarDeg := Fin 90 |}]
          ++ [{| button := 0; polarDeg := Fin (-80) |}])) in
  exists d,
    rotation st' = Fin (0 + d) /\ -180 <= d <= 180 /\
    d = wrap_delta (10 - 350) /\
    dragRef st'
    = Some {| startAngle :=
                angleFromEvent {| button := 0; polarDeg := Fin (-100) |};
              startRotation := Fin 0 |}.
Proof.
  apply (drag_follows_latest_move None _ _
           [{| button := 0; polarDeg := Fin 90 |}]
           {| button := 0; polarDeg := Fin (-80) |} 0 350 10).
  - reflexivity.
  - exact angle_350.
  - lra.
  - reflexivity.
  - exact angle_10.
  - lra.
Defined.

Lemma setDragRef_same (st : ViewState) :
  setDragRef (dragRef st) st = st.
Proof. now destruct st. Qed.

(** X20.  Hovering never rotates the wheel: while there is no drag anchor,
    pointer-moves, pointer-ups, pointer-leaves and pointer-downs of a
    button other than the primary one leave the whole view state as it
    is. *)
Theorem hover_changes_nothing (window : option Window) (st : ViewState)
  (events : list Event) :
  dragRef st = None ->
  Forall no_drag_start events ->
  run window st events = st.
Proof.
  intros Hd Hev. unfold run.
  induction Hev as [| ev events Hne Hev IH]; cbn [fold_left]; [reflexivity |].
  assert (Hstep : handle window st ev = st).
  { destruct ev; cbn in Hne; try contradiction; cbn [handle].
    - unfold handlePointerDown.
      destruct (Z.eqb_spec (button e) 0); [contradiction | reflexivity].
    - unfold handlePointerMove. now rewrite Hd.
    - unfold handlePointerUp. rewrite <- Hd. apply setDragRef_same.
    - unfold handlePointerUp. rewrite <- Hd. apply setDragRef_same. }
  rewrite Hstep. exact IH.
Qed.

(** Moving the pointer over the wheel at mount, pressing the secondary
    button and leaving. *)
Lemma hover_changes_nothing_witness :
  run None initialState
    [ PointerMove {| button := 0; polarDeg := Fin 30 |};
      PointerDown {| button := 2; polarDeg := Fin 30 |};
      PointerMove {| button := 2; polarDeg := Fin 60 |};
      PointerUp; PointerLeave ]
  = initialState.
Proof.
  apply (hover_changes_nothing None initialState).
  - reflexivity.
  - repeat constructor. cbn. discriminate.
Defined.

(** X21.  [handleReset] sets the rotation to 0 and the zoom to 1 and leaves
    the drag anchor as it is: when an anchor is set, the next pointer-move
    sets the rotation from the rotation of the anchor exactly as if there
    had been no reset; only the zoom stays at 1. *)
Theorem reset_during_drag_is_undone (e : PointerEvent) (st : ViewState)
  (anchor : DragAnchor) :
  dragRef st = Some anchor ->
  rotation (handleReset st) = Fin 0 /\
  zoom (handleReset st) = Fin 1 /\
  rotation (handlePointerMove e (handleReset st))
  = rotation (handlePointerMove e st) /\
  zoom (handlePointerMove e (handleReset st)) = Fin 1.
Proof.
  intros Hd. split; [reflexivity |]. split; [reflexivity |].
  unfold handlePointerMove.
  cbn [handleReset dragRef setRotation setZoom]. rewrite Hd.
  split; reflexivity.
Qed.

(** A drag anchored at 350 with the wheel at rotation 0, a reset, and a
    move to 10: the rotation is 20 again. *)
Lemma reset_during_drag_is_undone_witness :
  let e := {| button := 0; polarDeg := Fin (-80) |} in
  let st :=
    handlePointerDown {| button := 0; polarDeg := Fin (-100) |} initialState in
  rotation (handleReset st) = Fin 0 /\
  zoom (handleReset st) = Fin 1 /\
  rotation (handlePointerMove e (handleReset st))
  = rotation (handlePointerMove e st) /\
  zoom (handlePointerMove e (handleReset st)) = Fin 1.
Proof.
  cbv zeta.
  apply (reset_during_drag_is_undone
           {| button := 0; polarDeg := Fin (-80) |}
           (handlePointerDown {| button := 0; polarDeg := Fin (-100) |}
              initialState)
           {| startAngle :=
                angleFromEvent {| button := 0; polarDeg := Fin (-100) |};
              startRotation := Fin 0 |}).
  reflexivity.
Defined.

End Gestures.

(** ** Zoom and tooltip, event after event *)

Section ZoomTooltip.

Import FlavorWheel.

(** The zoom after a wheel event, a pinch that spreads two fingers and a
    reset. *)
Lemma zoom_clamped_without_degenerate_pinch_witness :
  zoom_in_range
    (zoom
       (run None initialState
          [ Wheel {| deltaY := -100000 |};
            TouchStart [ {| clientX := 100; clientY := 200 |};
                         {| clientX := 103; clientY := 204 |} ];
            TouchMove [ {| clientX := 100; clientY := 200 |};
                        {| clientX := 400; clientY := 600 |} ];
            Reset ])).
Proof.
  apply (zoom_clamped_without_degenerate_pinch None).
  repeat constructor; cbn; try tauto.
  intros (H & _). lra.
Defined.

(** The clamp of the source, on a finite value. *)
Lemma clamp_code (v : R) :
  Math_min ZOOM_MAX (Math_max ZOOM_MIN (Fin v)) = Fin (clamp v).
Proof.
  unfold ZOOM_MAX, ZOOM_MIN, Math_max, Math_min, lt, Rltb, clamp, Rmax, Rmin.
  destruct (Rlt_dec (5 / 10) v); destruct (Rle_dec 3 v);
    destruct (Rlt_dec v 3); try lra;
    try (destruct (Rle_dec (5 / 10) 3)); try (destruct (Rle_dec (5 / 10) v));
    try (destruct (Rlt_dec (5 / 10) 3)); try lra;
    try reflexivity; apply Fin_eq; lra.
Qed.

Lemma clamp_bounds (v : R) : 5 / 10 <= clamp v <= 3.
Proof.
  unfold clamp, Rmax, Rmin.
  destruct (Rle_dec 3 v); destruct (Rle_dec (5 / 10) 3);
    try (destruct (Rle_dec (5 / 10) v)); lra.
Qed.

Lemma clamp_in (v : R) : 5 / 10 <= v <= 3 -> clamp v = v.
Proof.
  intros H. unfold clamp, Rmax, Rmin.
  destruct (Rle_dec 3 v); destruct (Rle_dec (5 / 10) 3);
    try (destruct (Rle_dec (5 / 10) v)); lra.
Qed.

Lemma clamp_monotone (u v : R) : u <= v -> clamp u <= clamp v.
Proof.
  intros H. unfold clamp.
  apply Rmax_case_strong; apply Rmax_case_strong;
    apply Rmin_case_strong; apply Rmin_case_strong; lra.
Qed.

(** X23.  A zoom that is [NaN] stays [NaN] under wheel events: every
    subtraction and every clamp hands [NaN] on. *)
Theorem wheel_keeps_nan (window : option Window) (es : list WheelEvent) :
  forall st, zoom st = NaN -> zoom (run window st (map Wheel es)) = NaN.
Proof.
  unfold run. induction es as [| e es IH]; intros st Hz; cbn [map fold_left].
  - exact Hz.
  - apply IH. cbn [handle handleWheel zoom setZoom]. now rewrite Hz.
Qed.

(** After the degenerate pinch, scrolling does not bring the zoom back. *)
Lemma wheel_keeps_nan_witness :
  zoom
    (run None
       (run None initialState
          [ TouchStart [ {| clientX := 100; clientY := 200 |};
                         {| clientX := 100; clientY := 200 |} ];
            TouchMove [ {| clientX := 100; clientY := 200 |};
                        {| clientX := 100; clientY := 200 |} ] ])
       (map Wheel [ {| deltaY := 100 |}; {| deltaY := -300 |} ]))
  = NaN.
Proof.
  apply (wheel_keeps_nan None).
  unfold run. cbn [fold_left handle handleTouchStart handleTouchMove
                     pinchRef setPinchRef initialDistance initialZoom
                     zoom setZoom initialState].
  rewrite getTouchDistance_same. unfold div.
  rewrite Reqb_true by reflexivity.
  rewrite !Rltb_false by lra. reflexivity.
Defined.

(** X24.  A wheel event on a zoom within range sets it to the clamp of the
    zoom minus 0.002 times [deltaY]: scrolling down ([deltaY >= 0]) never
    zooms in, scrolling up never zooms out, the result stays within
    [0.5, 3], and it is the unclamped value whenever that is within
    range. *)
Theorem wheel_zoom_direction (e : WheelEvent) (st : ViewState) (z : R) :
  zoom st = Fin z -> 5 / 10 <= z <= 3 ->
  exists z',
    zoom (handleWheel e st) = Fin z' /\
    5 / 10 <= z' <= 3 /\
    (0 <= deltaY e -> z' <= z) /\
    (deltaY e <= 0 -> z <= z') /\
    (5 / 10 <= z - deltaY e * (2 / 1000) <= 3 ->
     z' = z - deltaY e * (2 / 1000)).
Proof.
  intros Hz Hr. exists (clamp (z - deltaY e * (2 / 1000))).
  split.
  { cbn [handleWheel zoom setZoom]. rewrite Hz.
    cbn [sub mul ZOOM_SENSITIVITY]. apply clamp_code. }
  split; [apply clamp_bounds |].
  pose proof (clamp_in z Hr) as Hzc.
  split; [| split].
  - intros Hd. apply Rle_trans with (clamp z); [| lra].
    apply clamp_monotone. nra.
  - intros Hd. apply Rle_trans with (clamp z); [lra |].
    apply clamp_monotone. nra.
  - apply clamp_in.
Qed.

(** Scrolling down by 100 from the zoom at mount. *)
Lemma wheel_zoom_direction_witness :
  exists z',
    zoom (handleWheel {| deltaY := 100 |} initialState) = Fin z' /\
    5 / 10 <= z' <= 3 /\
    (0 <= 100 -> z' <= 1) /\
    (100 <= 0 -> 1 <= z') /\
    (5 / 10 <= 1 - 100 * (2 / 1000) <= 3 -> z' = 1 - 100 * (2 / 1000)).
Proof.
  apply (wheel_zoom_direction {| deltaY := 100 |} initialState 1).
  - reflexivity.
  - lra.
Defined.

(** A touch-move keeps the pinch baseline. *)
Lemma handleTouchMove_pinchRef (touches : list Touch) (st : ViewState) :
  pinchRef (handleTouchMove touches st) = pinchRef st.
Proof.
  unfold handleTouchMove.
  destruct touches as [| a [| b [| c touches]]]; try reflexivity.
  destruct (pinchRef st) eqn:E; [cbn; exact E | exact E].
Qed.

Lemma touch_moves_keep_baseline (window : option Window)
  (moves : list (list Touch)) :
  forall st, pinchRef (run window st (map TouchMove moves)) = pinchRef st.
Proof.
  unfold run. induction moves as [| m moves IH]; intros st;
    cbn [map fold_left].
  - reflexivity.
  - rewrite IH. apply handleTouchMove_pinchRef.
Qed.

Lemma getTouchDistance_dist (a b : Touch) :
  getTouchDistance a b
  = Fin (dist (clientX a) (clientY a) (clientX b) (clientY b)).
Proof. reflexivity. Qed.

(** X25.  A pinch is relative to its baseline: after a touch-start with
    two distinct contact points on a zoom [z0] within range, and any
    touch-moves, the zoom is the clamp of [z0] times the ratio of the
    distance of the last two-finger move to the distance at touch-start,
    whatever the moves in between.  Back at the initial contact points the
    zoom is [z0] again. *)
Theorem pinch_relative_to_baseline (window : option Window) (st : ViewState)
  (z0 : R) (a b a' b' : Touch) (moves : list (list Touch)) :
  zoom st = Fin z0 -> 5 / 10 <= z0 <= 3 ->
  0 < dist (clientX a) (clientY a) (clientX b) (clientY b) ->
  let d0 := dist (clientX a) (clientY a) (clientX b) (clientY b) in
  let d1 := dist (clientX a') (clientY a') (clientX b') (clientY b') in
  zoom (run window (handleTouchStart [a; b] st)
          (map TouchMove (moves ++ [[a'; b']])))
  = Fin (clamp (z0 * (d1 / d0))) /\
  zoom (run window (handleTouchStart [a; b] st)
          (map TouchMove (moves ++ [[a; b]])))
  = Fin z0.
Proof.
  intros Hz Hr Hd d0 d1.
  assert (Hlast : forall p q,
    zoom (run window (handleTouchStart [a; b] st)
            (map TouchMove (moves ++ [[p; q]])))
    = Fin (clamp (z0 * (dist (clientX p) (clientY p) (clientX q) (clientY q)
                        / d0)))).
  { intros p q. rewrite map_app, run_app. cbn [map].
    set (st1 := run window (handleTouchStart [a; b] st) (map TouchMove moves)).
    assert (Hp : pinchRef st1
                 = Some {| initialDistance := Fin d0; initialZoom := Fin z0 |}).
    { unfold st1. rewrite touch_moves_keep_baseline.
      cbn [handleTouchStart pinchRef setPinchRef]. now rewrite Hz. }
    unfold run. cbn [fold_left handle]. unfold handleTouchMove. rewrite Hp.
    cbn [zoom setZoom initialDistance initialZoom].
    rewrite getTouchDistance_dist, div_fin by (unfold d0; lra).
    cbn [mul]. apply clamp_code. }
  split; [apply Hlast |].
  rewrite Hlast. apply Fin_eq. fold d0.
  replace (z0 * (d0 / d0)) with z0 by (field; unfold d0; lra).
  now apply clamp_in.
Qed.

Lemma dist_3_4 : dist 100 200 103 204 = 5.
Proof.
  unfold dist. replace ((103 - 100) * (103 - 100) + (204 - 200) * (204 - 200))
    with (5 * 5) by lra.
  apply sqrt_square. lra.
Qed.

(** Two fingers 5 apart on the wheel at mount, spread, and brought back. *)
Lemma pinch_relative_to_baseline_witness :
  let a := {| clientX := 100; clientY := 200 |} in
  let b := {| clientX := 103; clientY := 204 |} in
  let b' := {| clientX := 400; clientY := 600 |} in
  zoom (run None (handleTouchStart [a; b] initialState)
          (map TouchMove ([[a; b']] ++ [[a; b']])))
  = Fin (clamp (1 * (dist 100 200 400 600 / dist 100 200 103 204))) /\
  zoom (run None (handleTouchStart [a; b] initialState)
          (map TouchMove ([[a; b']] ++ [[a; b]])))
  = Fin 1.
Proof.
  cbv zeta.
  apply (pinch_relative_to_baseline None initialState 1
           {| clientX := 100; clientY := 200 |}
           {| clientX := 103; clientY := 204 |}
           {| clientX := 100; clientY := 200 |}
           {| clientX := 400; clientY := 600 |}
           [[ {| clientX := 100; clientY := 200 |};
              {| clientX := 400; clientY := 600 |} ]]).
  - reflexivity.
  - lra.
  - cbn [clientX clientY]. rewrite dist_3_4. lra.
Defined.

(** X26.  A click on a segment whose tooltip is not showing shows it, and
    a second click on the same segment dismisses it. *)
Theorem click_toggles_tooltip (window : option Window) (s : WheelSegment)
  (rect rect' : DOMRect) (st : ViewState) :
  match tooltip st with
  | Some shown => WheelData.id (seg shown) <> WheelData.id s
  | None => True
  end ->
  tooltip (handleSegmentClick window s rect st)
  = Some (segmentTooltip window s rect) /\
  seg (segmentTooltip window s rect) = s /\
  tooltip (handleSegmentClick window s rect'
             (handleSegmentClick window s rect st)) = None.
Proof.
  intros Hshown.
  assert (H1 : tooltip (handleSegmentClick window s rect st)
               = Some (segmentTooltip window s rect)).
  { unfold handleSegmentClick.
    destruct (tooltip st) as [shown |]; [| reflexivity].
    destruct (String.eqb_spec (WheelData.id (seg shown)) (WheelData.id s));
      [contradiction | reflexivity]. }
  assert (H2 : seg (segmentTooltip window s rect) = s).
  { unfold segmentTooltip.
    destruct (Arc.polarToCart _ _ _ _). reflexivity. }
  split; [exact H1 |]. split; [exact H2 |].
  unfold handleSegmentClick at 1. rewrite H1, H2.
  rewrite String.eqb_refl. reflexivity.
Qed.

(** Two clicks on the segment [a] of the scenario, on the wheel at
    mount. *)
Lemma click_toggles_tooltip_witness :
  let s := mkWheelSegment "a" Ring1 "A" "d" (Fin 0) (Fin 180) None "a" in
  let rect :=
    {| left := Fin 0; top := Fin 0; width := Fin 800; height := Fin 800 |} in
  tooltip (handleSegmentClick None s rect initialState)
  = Some (segmentTooltip None s rect) /\
  seg (segmentTooltip None s rect) = s /\
  tooltip (handleSegmentClick None s rect
             (handleSegmentClick None s rect initialState)) = None.
Proof.
  cbv zeta.
  apply (click_toggles_tooltip None
           (mkWheelSegment "a" Ring1 "A" "d" (Fin 0) (Fin 180) None "a")
           {| left := Fin 0; top := Fin 0; width := Fin 800;
              height := Fin 800 |}
           {| left := Fin 0; top := Fin 0; width := Fin 800;
              height := Fin 800 |}
           initialState).
  exact I.
Defined.

(** X27.  The tooltip track is confined to the tooltip: the four segment
    handlers leave the rotation, the zoom and both gesture anchors as they
    are; a pointer-enter during a drag changes nothing at all, and a
    pointer-move over a segment never changes which segment the tooltip
    shows. *)
Theorem tooltip_track_confined (window : option Window) (s : WheelSegment)
  (rect : DOMRect) (st : ViewState) (ev : Event) :
  In ev [ SegmentPointerEnter s rect; SegmentPointerMove s rect;
          SegmentPointerLeave; SegmentClick s rect ] ->
  let st' := handle window st ev in
  rotation st' = rotation st /\ zoom st' = zoom st /\
  dragRef st' = dragRef st /\ pinchRef st' = pinchRef st /\
  (ev = SegmentPointerEnter s rect -> dragRef st <> None -> st' = st) /\
  (ev = SegmentPointerMove s rect ->
   option_map (fun t => WheelData.id (seg t)) (tooltip st')
   = option_map (fun t => WheelData.id (seg t)) (tooltip st)).
Proof.
  intros Hin. cbn [In] in Hin.
  destruct Hin as [<- | [<- | [<- | [<- | []]]]]; cbn [handle].
  - unfold handleSegmentPointerEnter.
    destruct (dragRef st) eqn:Hd; cbn; rewrite ?Hd;
      repeat split; try reflexivity; try discriminate.
    intros _ H. now contradiction H.
  - unfold handleSegmentPointerMove.
    destruct (tooltip st) as [prev |] eqn:Ht;
      [| rewrite Ht; repeat split; (reflexivity || discriminate)].
    destruct (String.eqb_spec (WheelData.id (seg prev)) (WheelData.id s))
      as [Heq | Hne].
    + repeat split; try reflexivity; try discriminate.
      intros _. cbn [tooltip setTooltip option_map]. f_equal.
      unfold segmentTooltip. destruct (Arc.polarToCart _ _ _ _).
      cbn [seg]. now symmetry.
    + rewrite Ht. repeat split; (reflexivity || discriminate).
  - repeat split; (reflexivity || discriminate).
  - unfold handleSegmentClick.
    destruct (tooltip st) as [cur |];
      [destruct (String.eqb _ _) |];
      repeat split; (reflexivity || discriminate).
Qed.

(** A pointer-enter over the segment [a] of the scenario during a drag. *)
Lemma tooltip_track_confined_witness :
  let s := mkWheelSegment "a" Ring1 "A" "d" (Fin 0) (Fin 180) None "a" in
  let rect :=
    {| left := Fin 0; top := Fin 0; width := Fin 800; height := Fin 800 |} in
  let st :=
    handlePointerDown {| button := 0; polarDeg := Fin 0 |} initialState in
  let ev := SegmentPointerEnter s rect in
  let st' := handle None st ev in
  rotation st' = rotation st /\ zoom st' = zoom st /\
  dragRef st' = dragRef st /\ pinchRef st' = pinchRef st /\
  (ev = SegmentPointerEnter s rect -> dragRef st <> None -> st' = st) /\
  (ev = SegmentPointerMove s rect ->
   option_map (fun t => WheelData.id (seg t)) (tooltip st')
   = option_map (fun t => WheelData.id (seg t)) (tooltip st)).
Proof.
  cbv zeta.
  apply (tooltip_track_confined None
           (mkWheelSegment "a" Ring1 "A" "d" (Fin 0) (Fin 180) None "a")
           {| left := Fin 0; top := Fin 0; width := Fin 800;
              height := Fin 800 |}).
  now left.
Defined.

End ZoomTooltip.

(** ** Lightening a color *)

Section Lighten.

Import Colors.
Local Open Scope Z_scope.

Lemma digit_cases (v : Z) :
  0 <= v < 16 ->
  v = 0 \/ v = 1 \/ v = 2 \/ v = 3 \/ v = 4 \/ v = 5 \/ v = 6 \/ v = 7 \/
  v = 8 \/ v = 9 \/ v = 10 \/ v = 11 \/ v = 12 \/ v = 13 \/ v = 14 \/ v = 15.
Proof. lia. Qed.

Ltac each_digit H :=
  apply digit_cases in H;
  repeat (destruct H as [H | H]; [subst | ]); [.. | subst].

Lemma hex_digit_range (c : ascii) (v : Z) :
  hex_digit c = Some v -> 0 <= v < 16.
Proof.
  unfold hex_digit. set (n := Z.of_nat (nat_of_ascii c)).
  destruct ((48 <=? n) && (n <=? 57))%bool eqn:E1.
  { apply andb_true_iff in E1. intros H. injection H as <-. lia. }
  destruct ((97 <=? n) && (n <=? 102))%bool eqn:E2.
  { apply andb_true_iff in E2. intros H. injection H as <-. lia. }
  destruct ((65 <=? n) && (n <=? 70))%bool eqn:E3.
  { apply andb_true_iff in E3. intros H. injection H as <-. lia. }
  discriminate.
Qed.

Lemma hex_digit_char (v : Z) : 0 <= v < 16 -> hex_digit (hex_char v) = Some v.
Proof. intros H. each_digit H; reflexivity. Qed.

Lemma hex_cons_acc (v : Z) (u : Hexadecimal.uint) (acc : positive) :
  0 <= v < 16 ->
  exists acc',
    Pos.of_hex_uint_acc (hex_cons v u) acc = Pos.of_hex_uint_acc u acc' /\
    Z.pos acc' = 16 * Z.pos acc + v.
Proof.
  intros H. each_digit H; cbn [hex_cons Pos.of_hex_uint_acc];
    eexists; (split; [reflexivity | lia]).
Qed.

Lemma hex_cons_string (v : Z) (u : Hexadecimal.uint) :
  0 <= v < 16 ->
  NilEmpty.string_of_uint (hex_cons v u)
  = String (hex_char v) (NilEmpty.string_of_uint u).
Proof. intros H. each_digit H; reflexivity. Qed.

(** The seven digits that [toString(16)] prints for [0x1000000] plus a
    color. *)
Lemma toString16_color (r g b : Z) :
  0 <= r <= 255 -> 0 <= g <= 255 -> 0 <= b <= 255 ->
  toString16 (16777216 + r * 65536 + g * 256 + b)
  = String "1" (hex2 r ++ hex2 g ++ hex2 b).
Proof.
  intros Hr Hg Hb.
  set (u := Hexadecimal.D1
              (hex_cons (r / 16) (hex_cons (r mod 16)
              (hex_cons (g / 16) (hex_cons (g mod 16)
              (hex_cons (b / 16) (hex_cons (b mod 16) Hexadecimal.Nil))))))).
  assert (D : forall c, 0 <= c <= 255 -> 0 <= c / 16 < 16 /\ 0 <= c mod 16 < 16).
  { intros c Hc. split.
    - split; [apply Z.div_pos; lia | apply Z.div_lt_upper_bound; lia].
    - apply Z.mod_pos_bound. lia. }
  destruct (D r Hr) as (Hr1 & Hr0). destruct (D g Hg) as (Hg1 & Hg0).
  destruct (D b Hb) as (Hb1 & Hb0).
  assert (Hn : Z.to_N (16777216 + r * 65536 + g * 256 + b) = N.of_hex_uint u).
  { unfold u, N.of_hex_uint. cbn [Pos.of_hex_uint].
    destruct (hex_cons_acc (r / 16) (hex_cons (r mod 16)
              (hex_cons (g / 16) (hex_cons (g mod 16)
              (hex_cons (b / 16) (hex_cons (b mod 16) Hexadecimal.Nil))))) 1 Hr1)
      as (a1 & -> & E1).
    destruct (hex_cons_acc (r mod 16)
              (hex_cons (g / 16) (hex_cons (g mod 16)
              (hex_cons (b / 16) (hex_cons (b mod 16) Hexadecimal.Nil)))) a1 Hr0)
      as (a2 & -> & E2).
    destruct (hex_cons_acc (g / 16) (hex_cons (g mod 16)
              (hex_cons (b / 16) (hex_cons (b mod 16) Hexadecimal.Nil))) a2 Hg1)
      as (a3 & -> & E3).
    destruct (hex_cons_acc (g mod 16)
              (hex_cons (b / 16) (hex_cons (b mod 16) Hexadecimal.Nil)) a3 Hg0)
      as (a4 & -> & E4).
    destruct (hex_cons_acc (b / 16) (hex_cons (b mod 16) Hexadecimal.Nil) a4 Hb1)
      as (a5 & -> & E5).
    destruct (hex_cons_acc (b mod 16) Hexadecimal.Nil a5 Hb0)
      as (a6 & -> & E6).
    cbn [Pos.of_hex_uint_acc].
    pose proof (Z.div_mod r 16). pose proof (Z.div_mod g 16).
    pose proof (Z.div_mod b 16). lia. }
  unfold toString16. rewrite Hn, HexadecimalN.Unsigned.to_of.
  unfold u. cbn [Hexadecimal.unorm Hexadecimal.nzhead NilZero.string_of_uint
                 NilEmpty.string_of_uint].
  rewrite !hex_cons_string by assumption. reflexivity.
Qed.

(** The digits and the channels of a color [#rrggbb]. *)
Lemma hex7_digits (hex : string) :
  is_hex7 hex = true ->
  exists v1 v2 v3 v4 v5 v6,
    parseInt16 (slice1 hex)
    = Some (16 * (16 * (16 * (16 * (16 * (16 * 0 + v1) + v2) + v3) + v4) + v5) + v6) /\
    css_rgb hex = Some (16 * v1 + v2, 16 * v3 + v4, 16 * v5 + v6) /\
    0 <= v1 < 16 /\ 0 <= v2 < 16 /\ 0 <= v3 < 16 /\
    0 <= v4 < 16 /\ 0 <= v5 < 16 /\ 0 <= v6 < 16.
Proof.
  unfold is_hex7. destruct hex as [| c0 digits]; [discriminate |].
  destruct (Ascii.eqb_spec c0 "#") as [-> | Hne].
  2:{ destruct c0 as [[] [] [] [] [] [] [] []]; try discriminate.
      now contradiction Hne. }
  intros H. apply andb_true_iff in H. destruct H as (Hlen & Hall).
  destruct digits as [| c1 [| c2 [| c3 [| c4 [| c5 [| c6 [| c7 rest]]]]]]];
    try discriminate.
  unfold all_hex in Hall. cbn [list_ascii_of_string forallb] in Hall.
  destruct (hex_digit c1) as [v1 |] eqn:E1; [| discriminate].
  destruct (hex_digit c2) as [v2 |] eqn:E2; [| discriminate].
  destruct (hex_digit c3) as [v3 |] eqn:E3; [| discriminate].
  destruct (hex_digit c4) as [v4 |] eqn:E4; [| discriminate].
  destruct (hex_digit c5) as [v5 |] eqn:E5; [| discriminate].
  destruct (hex_digit c6) as [v6 |] eqn:E6; [| discriminate].
  exists v1, v2, v3, v4, v5, v6.
  split.
  { cbn [slice1]. unfold parseInt16. rewrite E1.
    cbn [parse_hex_digits]. now rewrite E1, E2, E3, E4, E5, E6. }
  split.
  { unfold css_rgb. cbn [list_ascii_of_string map].
    now rewrite E1, E2, E3, E4, E5, E6. }
  repeat split; eapply hex_digit_range; eassumption.
Qed.

Lemma is_hex7_hex2 (r g b : Z) :
  0 <= r <= 255 -> 0 <= g <= 255 -> 0 <= b <= 255 ->
  is_hex7 (String "#" (hex2 r ++ hex2 g ++ hex2 b)) = true /\
  css_rgb (String "#" (hex2 r ++ hex2 g ++ hex2 b)) = Some (r, g, b).
Proof.
  intros Hr Hg Hb.
  assert (D : forall c, 0 <= c <= 255 -> 0 <= c / 16 < 16 /\ 0 <= c mod 16 < 16).
  { intros c Hc. split.
    - split; [apply Z.div_pos; lia | apply Z.div_lt_upper_bound; lia].
    - apply Z.mod_pos_bound. lia. }
  destruct (D r Hr) as (Hr1 & Hr0). destruct (D g Hg) as (Hg1 & Hg0).
  destruct (D b Hb) as (Hb1 & Hb0).
  unfold is_hex7, css_rgb, all_hex, hex2.
  cbn [String.append String.length list_ascii_of_string forallb map Nat.eqb].
  rewrite !hex_digit_char by assumption.
  split; [reflexivity |].
  pose proof (Z.div_mod r 16). pose proof (Z.div_mod g 16).
  pose proof (Z.div_mod b 16).
  do 2 f_equal; [f_equal |]; lia.
Qed.

(** The channels that [lighten] reads from the parsed number. *)
Lemma channels_of (v1 v2 v3 v4 v5 v6 : Z) :
  0 <= v1 < 16 -> 0 <= v2 < 16 -> 0 <= v3 < 16 ->
  0 <= v4 < 16 -> 0 <= v5 < 16 -> 0 <= v6 < 16 ->
  let n := Some (16 * (16 * (16 * (16 * (16 * (16 * 0 + v1) + v2) + v3) + v4) + v5) + v6) in
  channel n 16 = 16 * v1 + v2 /\
  channel n 8 = 16 * v3 + v4 /\
  channel n 0 = 16 * v5 + v6.
Proof.
  intros H1 H2 H3 H4 H5 H6 n. subst n. unfold channel, toInt32.
  set (m := 16 * (16 * (16 * (16 * (16 * (16 * 0 + v1) + v2) + v3) + v4) + v5) + v6).
  assert (Hm : 0 <= m < 2 ^ 24) by (unfold m; lia).
  rewrite Z.mod_small by lia.
  replace (m + 2 ^ 31 - 2 ^ 31) with m by lia.
  change 255 with (Z.ones 8). rewrite !Z.land_ones by lia.
  rewrite !Z.shiftr_div_pow2 by lia.
  change (2 ^ 16) with 65536. change (2 ^ 8) with 256. change (2 ^ 0) with 1.
  rewrite Z.div_1_r.
  unfold m. repeat split.
  - replace (16 * (16 * (16 * (16 * (16 * (16 * 0 + v1) + v2) + v3) + v4) + v5) + v6)
      with ((16 * v1 + v2) * 65536 + (4096 * v3 + 256 * v4 + 16 * v5 + v6)) by lia.
    rewrite Z.div_add_l, Z.div_small, Z.add_0_r by lia.
    apply Z.mod_small. lia.
  - replace (16 * (16 * (16 * (16 * (16 * (16 * 0 + v1) + v2) + v3) + v4) + v5) + v6)
      with ((4096 * v1 + 256 * v2 + 16 * v3 + v4) * 256 + (16 * v5 + v6)) by lia.
    rewrite Z.div_add_l, Z.div_small, Z.add_0_r by lia.
    replace (4096 * v1 + 256 * v2 + 16 * v3 + v4)
      with ((16 * v1 + v2) * 256 + (16 * v3 + v4)) by lia.
    rewrite Z.add_comm, Z.mod_add by lia. apply Z.mod_small. lia.
  - replace (16 * (16 * (16 * (16 * (16 * (16 * 0 + v1) + v2) + v3) + v4) + v5) + v6)
      with ((16 * v5 + v6) + (4096 * v1 + 256 * v2 + 16 * v3 + v4) * 256)
      by lia.
    rewrite Z.mod_add by lia. apply Z.mod_small. lia.
Qed.

(** A channel lightened by an amount between 0 and 1 gets no darker and
    stays within range. *)
Lemma lightened_range (c : Z) (amount : Q) :
  0 <= c <= 255 -> (0 <= amount <= 1)%Q -> c <= lightened c amount <= 255.
Proof.
  intros Hc (Ha0 & Ha1). unfold lightened, lighten_channel, Math_round, Math_min.
  set (x := (inject_Z c + (255 - inject_Z c) * amount)%Q).
  assert (Hc0 : (inject_Z 0 <= inject_Z c)%Q) by (rewrite <- Zle_Qle; lia).
  assert (Hc1 : (inject_Z c <= inject_Z 255)%Q) by (rewrite <- Zle_Qle; lia).
  change (inject_Z 0) with 0%Q in Hc0. change (inject_Z 255) with 255%Q in Hc1.
  assert (Hx : (inject_Z c <= x /\ x <= 255)%Q) by (unfold x; split; Lqa.nra).
  destruct Hx as (Hx0 & Hx1).
  assert (Hlo : forall y, (inject_Z c <= y)%Q -> c <= Qfloor (y + (1 # 2))).
  { intros y Hy. rewrite <- (Qfloor_Z c). apply Qfloor_resp_le. Lqa.lra. }
  assert (Hhi : forall y, (y <= 255)%Q -> Qfloor (y + (1 # 2)) <= 255).
  { intros y Hy. change 255 with (Qfloor (255 + (1 # 2))).
    apply Qfloor_resp_le. Lqa.lra. }
  destruct (Qle_bool 255 x) eqn:E.
  - split; [apply Hlo; exact Hc1 | apply Hhi; Lqa.lra].
  - split; [apply Hlo; exact Hx0 | apply Hhi; exact Hx1].
Qed.

(** What [lighten] returns for a color [#rrggbb]. *)
Lemma lighten_hex7 (hex : string) (amount : Q) :
  is_hex7 hex = true -> (0 <= amount <= 1)%Q ->
  exists r g b,
    css_rgb hex = Some (r, g, b) /\
    0 <= r <= 255 /\ 0 <= g <= 255 /\ 0 <= b <= 255 /\
    lighten hex amount
    = String "#" (hex2 (lightened r amount) ++ hex2 (lightened g amount)
                  ++ hex2 (lightened b amount)).
Proof.
  intros H7 Ha.
  destruct (hex7_digits hex H7)
    as (v1 & v2 & v3 & v4 & v5 & v6 & Hparse & Hcss & H1 & H2 & H3 & H4 & H5 & H6).
  exists (16 * v1 + v2), (16 * v3 + v4), (16 * v5 + v6).
  split; [exact Hcss |].
  split; [lia |]. split; [lia |]. split; [lia |].
  unfold lighten. rewrite Hparse.
  destruct (channels_of v1 v2 v3 v4 v5 v6 H1 H2 H3 H4 H5 H6) as (-> & -> & ->).
  fold (lightened (16 * v1 + v2) amount).
  fold (lightened (16 * v3 + v4) amount).
  fold (lightened (16 * v5 + v6) amount).
  pose proof (lightened_range (16 * v1 + v2) amount ltac:(lia) Ha).
  pose proof (lightened_range (16 * v3 + v4) amount ltac:(lia) Ha).
  pose proof (lightened_range (16 * v5 + v6) amount ltac:(lia) Ha).
  rewrite toString16_color by lia. reflexivity.
Qed.

Lemma lightened_zero (c : Z) : 0 <= c <= 255 -> lightened c 0 = c.
Proof.
  intros Hc. unfold lightened, lighten_channel, Math_round, Math_min.
  assert (Hc1 : (inject_Z c <= inject_Z 255)%Q) by (rewrite <- Zle_Qle; lia).
  change (inject_Z 255) with 255%Q in Hc1.
  assert (E : forall y, (y == inject_Z c)%Q -> Qfloor (y + (1 # 2)) = c).
  { intros y Hy. apply Z.le_antisymm.
    - apply Z.lt_succ_r. rewrite Zlt_Qlt.
      apply Qle_lt_trans with (y + (1 # 2))%Q; [apply Qfloor_le |].
      unfold Z.succ. rewrite inject_Z_plus. change (inject_Z 1) with 1%Q.
      Lqa.lra.
    - rewrite <- (Qfloor_Z c) at 1. apply Qfloor_resp_le. Lqa.lra. }
  destruct (Qle_bool 255 _) eqn:L.
  - apply Qle_bool_iff in L. apply E. Lqa.lra.
  - apply E. Lqa.lra.
Qed.

Lemma lightened_one (c : Z) : 0 <= c <= 255 -> lightened c 1 = 255.
Proof.
  intros Hc. unfold lightened, lighten_channel, Math_round, Math_min.
  assert (E : forall y, (y == 255)%Q -> Qfloor (y + (1 # 2)) = 255).
  { intros y Hy. transitivity (Qfloor (255 + (1 # 2))); [| reflexivity].
    apply Qfloor_comp. Lqa.lra. }
  destruct (Qle_bool 255 _) eqn:L.
  - apply E. reflexivity.
  - apply E. Lqa.lra.
Qed.

Lemma lightened_monotone (c : Z) (a1 a2 : Q) :
  0 <= c <= 255 -> (a1 <= a2)%Q -> lightened c a1 <= lightened c a2.
Proof.
  intros Hc Ha. unfold lightened, lighten_channel, Math_round, Math_min.
  assert (Hc1 : (inject_Z c <= inject_Z 255)%Q) by (rewrite <- Zle_Qle; lia).
  change (inject_Z 255) with 255%Q in Hc1.
  apply Qfloor_resp_le.
  destruct (Qle_bool 255 (_ + _ * a1)) eqn:L1;
    destruct (Qle_bool 255 (_ + _ * a2)) eqn:L2.
  - Lqa.lra.
  - apply Qle_bool_iff in L1.
    assert (L2' : ~ (255 <= inject_Z c + (255 - inject_Z c) * a2)%Q)
      by (rewrite <- Qle_bool_iff, L2; discriminate).
    exfalso. apply L2'. Lqa.nra.
  - assert (L1' : ~ (255 <= inject_Z c + (255 - inject_Z c) * a1)%Q)
      by (rewrite <- Qle_bool_iff, L1; discriminate).
    apply Qnot_le_lt in L1'. Lqa.lra.
  - Lqa.nra.
Qed.

(** X29.  Lightening a color [#rrggbb] by an amount
    between 0 and 1 gives again a color of the form [#rrggbb]; each of its
    channels is the rounded blend of the channel with 255, and none is
    darker than before. *)
Theorem lighten_well_formed (hex : string) (amount : Q) :
  is_hex7 hex = true -> (0 <= amount <= 1)%Q ->
  is_hex7 (lighten hex amount) = true /\
  lighter_or_equal hex (lighten hex amount) = true /\
  exists r g b,
    css_rgb hex = Some (r, g, b) /\
    css_rgb (lighten hex amount)
    = Some (lightened r amount, lightened g amount, lightened b amount).
Proof.
  intros H7 Ha.
  destruct (lighten_hex7 hex amount H7 Ha)
    as (r & g & b & Hcss & Hr & Hg & Hb & ->).
  pose proof (lightened_range r amount Hr Ha) as Lr.
  pose proof (lightened_range g amount Hg Ha) as Lg.
  pose proof (lightened_range b amount Hb Ha) as Lb.
  destruct (is_hex7_hex2 (lightened r amount) (lightened g amount)
              (lightened b amount)) as (Hw & Hc); [lia | lia | lia |].
  split; [exact Hw |]. split.
  - unfold lighter_or_equal. rewrite Hcss, Hc.
    repeat (apply andb_true_iff; split); apply Z.leb_le; lia.
  - exists r, g, b. split; [exact Hcss | exact Hc].
Qed.

Lemma lighten_well_formed_witness :
  is_hex7 (lighten "#4a7c4a" (2 # 10)) = true /\
  lighter_or_equal "#4a7c4a" (lighten "#4a7c4a" (2 # 10)) = true /\
  exists r g b,
    css_rgb "#4a7c4a" = Some (r, g, b) /\
    css_rgb (lighten "#4a7c4a" (2 # 10))
    = Some (lightened r (2 # 10), lightened g (2 # 10), lightened b (2 # 10)).
Proof.
  apply (lighten_well_formed "#4a7c4a" (2 # 10)).
  - reflexivity.
  - split; discriminate.
Defined.

(** X30.  A larger amount never gives a darker color;
    the amount 0 keeps every channel of the color and the amount 1 gives
    white. *)
Theorem lighten_monotone (hex : string) (a1 a2 : Q) :
  is_hex7 hex = true -> (0 <= a1)%Q -> (a1 <= a2)%Q -> (a2 <= 1)%Q ->
  lighter_or_equal (lighten hex a1) (lighten hex a2) = true /\
  css_rgb (lighten hex 0) = css_rgb hex /\
  lighten hex 1 = "#ffffff"%string.
Proof.
  intros H7 H0 H12 H1.
  assert (A1 : (0 <= a1 <= 1)%Q) by (split; Lqa.lra).
  assert (A2 : (0 <= a2 <= 1)%Q) by (split; Lqa.lra).
  destruct (lighten_hex7 hex a1 H7 A1) as (r & g & b & Hcss & Hr & Hg & Hb & E1).
  destruct (lighten_hex7 hex a2 H7 A2) as (r2 & g2 & b2 & Hcss2 & _ & _ & _ & E2).
  rewrite Hcss in Hcss2. symmetry in Hcss2.
  assert (r2 = r /\ g2 = g /\ b2 = b) as (-> & -> & ->)
    by (repeat split; congruence). clear Hcss2.
  destruct (lighten_hex7 hex 0 H7 ltac:(split; discriminate))
    as (r0 & g0 & b0 & Hcss0 & _ & _ & _ & E0).
  rewrite Hcss in Hcss0. symmetry in Hcss0.
  assert (r0 = r /\ g0 = g /\ b0 = b) as (-> & -> & ->)
    by (repeat split; congruence). clear Hcss0.
  destruct (lighten_hex7 hex 1 H7 ltac:(split; discriminate))
    as (r1 & g1 & b1 & Hcss1 & _ & _ & _ & E1').
  rewrite Hcss in Hcss1. symmetry in Hcss1.
  assert (r1 = r /\ g1 = g /\ b1 = b) as (-> & -> & ->)
    by (repeat split; congruence). clear Hcss1.
  pose proof (lightened_range r a1 Hr A1). pose proof (lightened_range g a1 Hg A1).
  pose proof (lightened_range b a1 Hb A1).
  pose proof (lightened_range r a2 Hr A2). pose proof (lightened_range g a2 Hg A2).
  pose proof (lightened_range b a2 Hb A2).
  pose proof (lightened_monotone r a1 a2 Hr H12).
  pose proof (lightened_monotone g a1 a2 Hg H12).
  pose proof (lightened_monotone b a1 a2 Hb H12).
  split; [| split].
  - rewrite E1, E2. unfold lighter_or_equal.
    destruct (is_hex7_hex2 (lightened r a1) (lightened g a1) (lightened b a1))
      as (_ & ->); [lia | lia | lia |].
    destruct (is_hex7_hex2 (lightened r a2) (lightened g a2) (lightened b a2))
      as (_ & ->); [lia | lia | lia |].
    repeat (apply andb_true_iff; split); apply Z.leb_le; lia.
  - rewrite E0, !lightened_zero by assumption.
    destruct (is_hex7_hex2 r g b) as (_ & ->); [lia | lia | lia |].
    now rewrite Hcss.
  - rewrite E1', !lightened_one by assumption. reflexivity.
Qed.

Lemma lighten_monotone_witness :
  lighter_or_equal (lighten "#b8860b" (2 # 10)) (lighten "#b8860b" (38 # 100))
  = true /\
  css_rgb (lighten "#b8860b" 0) = css_rgb "#b8860b" /\
  lighten "#b8860b" 1 = "#ffffff"%string.
Proof.
  apply (lighten_monotone "#b8860b" (2 # 10) (38 # 100)).
  - reflexivity.
  - discriminate.
  - discriminate.
  - discriminate.
Defined.

End Lighten.
